(** * A shallow embedding of snapshot (snapshot/core.py and snapshot/parser.py)

    Values handled by [SnapshotPv.compare] are modelled after what pyepics and
    the save-file parser produce: [None], Python/numpy scalars, sequences that
    are not numpy arrays (lists, ctypes arrays) and numpy arrays.  Numbers are
    Python floats (IEEE binary64): a finite one is the rational it denotes,
    and the non-finite values are separate constructors, because numpy treats
    them separately in [isclose].  The one arithmetic operation of [compare],
    the difference [x - y] in [numpy.isclose], is rounded to binary64 (round
    to nearest, ties to even, overflow to infinity).  Sequences are taken to be
    homogeneous (all numbers or all strings). *)

From Stdlib Require Import Bool List String Ascii Arith QArith Qabs Qpower Lia.
Import ListNotations.
Open Scope nat_scope.
Open Scope string_scope.

(** ** Python exceptions and results *)

Inductive pyexn :=
| TypeError
| ValueError.

Inductive result (A : Type) :=
| Ret (a : A)
| Raise (e : pyexn).
Arguments Ret {A} a.
Arguments Raise {A} e.

(** ** Numbers, scalars and values *)

Inductive num :=
| Fin (q : Q)
| PInf
| NInf
| NaN.

Inductive scalar :=
| SNum (n : num)
| SStr (s : string).

Inductive value :=
| VNone                       (* Python None *)
| VScalar (x : scalar)        (* int, float, str or a numpy scalar *)
| VSeq (xs : list scalar)     (* a sequence that is not a numpy.ndarray *)
| VArray (xs : list scalar)   (* a 1-D numpy.ndarray *)
| VRow (xs : list scalar).    (* a numpy.ndarray of shape (1, len xs) *)

Definition is_none (v : value) : bool :=
  match v with VNone => true | _ => false end.

(** [isinstance(v, numpy.ndarray)] *)
Definition is_ndarray (v : value) : bool :=
  match v with VArray _ | VRow _ => true | _ => false end.

(** [numpy.size(v)]; [numpy.size(None)] is 1 (a 0-d object array). *)
Definition np_size (v : value) : nat :=
  match v with
  | VNone | VScalar _ => 1
  | VSeq xs | VArray xs | VRow xs => List.length xs
  end.

(** [numpy.array([v])] *)
Definition np_array_wrap (v : value) : value :=
  match v with
  | VNone => VArray []  (* not reached: guarded by [is not None] *)
  | VScalar x => VArray [x]
  | VSeq xs | VArray xs => VRow xs
  | VRow xs => VRow xs  (* not reached: guarded by the ndarray test *)
  end.

(** The elements of a value, in C order, and its shape. *)
Definition elems (v : value) : list scalar :=
  match v with
  | VNone => []
  | VScalar x => [x]
  | VSeq xs | VArray xs | VRow xs => xs
  end.

Definition shape (v : value) : list nat :=
  match v with
  | VNone | VScalar _ => []
  | VSeq xs | VArray xs => [List.length xs]
  | VRow xs => [1%nat; List.length xs]
  end.

(** A value converts to a numpy array of string dtype. *)
Definition is_str_scalar (x : scalar) : bool :=
  match x with SStr _ => true | SNum _ => false end.

Definition string_typed (v : value) : bool :=
  existsb is_str_scalar (elems v).

(** ** numpy.isclose / numpy.allclose with [rtol = 0]

    Elementwise, [(|x - y| <= atol + rtol*|y|) & isfinite(y) | (x == y)]:
    for two finite numbers the tolerance test, otherwise IEEE equality. *)

Definition num_eq (a b : num) : bool :=
  match a, b with
  | Fin p, Fin q => Qeq_bool p q
  | PInf, PInf | NInf, NInf => true
  | _, _ => false
  end.

(** *** Binary64 rounding

    [pow2 e] is [2^e]; [lg q] is the binary exponent of a positive [q]
    ([2^(lg q) <= q < 2^(lg q + 1)]); [fexp q] is the exponent of the last
    significand bit of a binary64 number of that size (53 significand bits,
    subnormals below [2^-1022], so never below [-1074]). *)
Definition pow2 (e : Z) : Q := Qpower (2 # 1) e.

Definition lg (q : Q) : Z :=
  let e0 := (Z.log2 (Qnum q) - Z.log2 (Zpos (Qden q)))%Z in
  if negb (Qle_bool (pow2 e0) q) then (e0 - 1)%Z else e0.

Definition fexp (q : Q) : Z := Z.max (-1074) (lg q - 52).

(** [a / b] ([b > 0]) rounded to the nearest integer, ties to even. *)
Definition rne_div (a b : Z) : Z :=
  let f := (a / b)%Z in
  match Z.compare (2 * (a mod b)) b with
  | Lt => f
  | Gt => (f + 1)%Z
  | Eq => if Z.even f then f else (f + 1)%Z
  end.

Definition rne (x : Q) : Z := rne_div (Qnum x) (Zpos (Qden x)).

(** A positive rational rounded to the binary64 grid of its binade, with an
    unbounded exponent range above; [round_abs] extends it by [0] to
    non-negative numbers. *)
Definition round_pos (q : Q) : Q :=
  inject_Z (rne (q * pow2 (- fexp q))) * pow2 (fexp q).

Definition round_abs (q : Q) : Q := if Qle_bool q 0 then 0 else round_pos q.

(** The binary64 number nearest to [x]: infinite when the rounded magnitude
    reaches [2^1024]. *)
Definition round64 (x : Q) : num :=
  let r := round_abs (Qabs x) in
  if Qle_bool (pow2 1024) r then (if negb (Qle_bool 0 x) then NInf else PInf)
  else Fin (if negb (Qle_bool 0 x) then - r else r).


(** For two finite numbers numpy computes [abs(x - y) <= atol + 0 * abs(y)]
    with [x - y] rounded ([atol + 0.0] is [atol]); an overflowed difference
    is infinite and fails the test. *)
Definition num_isclose (atol : Q) (a b : num) : bool :=
  match a, b with
  | Fin p, Fin q =>
      match round64 (p - q) with
      | Fin d => Qle_bool (Qabs d) atol
      | _ => false
      end
  | _, _ => num_eq a b
  end.

(** Broadcasting of the element lists of two values whose shapes have at most
    one non-trivial axis: equal lengths pair up, a single element is repeated,
    anything else fails with ValueError. *)
Definition broadcast_pairs (xs ys : list scalar) : option (list (scalar * scalar)) :=
  match xs, ys with
  | [x], _ => Some (map (fun y => (x, y)) ys)
  | _, [y] => Some (map (fun x => (x, y)) xs)
  | _, _ => if Nat.eqb (List.length xs) (List.length ys) then Some (combine xs ys) else None
  end.

Definition scalar_isclose (atol : Q) (p : scalar * scalar) : bool :=
  match p with
  | (SNum a, SNum b) => num_isclose atol a b
  | _ => false  (* not reached: string operands raise TypeError first *)
  end.

(** [numpy.allclose(v1, v2, atol=atol, rtol=0)]: [result_type(y, 1.)]
    rejects a string [y], [x - y] rejects a string [x] (both TypeError);
    incompatible shapes raise ValueError. *)
Definition allclose (v1 v2 : value) (atol : Q) : result bool :=
  if string_typed v2 then Raise TypeError
  else if string_typed v1 then Raise TypeError
  else match broadcast_pairs (elems v1) (elems v2) with
       | None => Raise ValueError
       | Some ps => Ret (forallb (scalar_isclose atol) ps)
       end.

Definition scalar_eq (x y : scalar) : bool :=
  match x, y with
  | SNum a, SNum b => num_eq a b
  | SStr s, SStr t => String.eqb s t
  | _, _ => false
  end.

Fixpoint forall2b {A} (f : A -> A -> bool) (xs ys : list A) : bool :=
  match xs, ys with
  | [], [] => true
  | x :: xs', y :: ys' => f x y && forall2b f xs' ys'
  | _, _ => false
  end.

(** [numpy.array_equal(v1, v2)]: equal shapes and equal elements. *)
Definition array_equal (v1 v2 : value) : bool :=
  (if list_eq_dec Nat.eq_dec (shape v1) (shape v2) then true else false) &&
  forall2b scalar_eq (elems v1) (elems v2).

(** ** SnapshotPv.compare (core.py, lines 293-329) *)

Definition normalize (v : value) : value :=
  if negb (is_none v) && negb (is_ndarray v) && Nat.eqb (np_size v) 1
  then np_array_wrap v
  else if Nat.eqb (np_size v) 0 then VNone
  else v.

Definition compare (value1 value2 : value) (is_array : bool) (tolerance : Q)
  : result bool :=
  let value1 := if is_array then normalize value1 else value1 in
  let value2 := if is_array then normalize value2 else value2 in
  if is_none value1 || is_none value2 then
    Ret (is_none value1 && is_none value2)
  else
    match allclose value1 value2 tolerance with
    | Ret b => Ret b
    | Raise TypeError => Ret (array_equal value1 value2)
    | Raise e => Raise e
    end.

(** ** SnapshotPv state (core.py, lines 102-230)

    The fields of a [SnapshotPv] that the methods below read or write.
    [completer_pending] stands for [_pvget_completer is not None]. *)

Record snapshot_pv := mk_pv {
  pvname : string;
  connected : bool;
  write_access : bool;
  is_array : bool;
  last_value : value;          (* _last_value *)
  initialized : bool;          (* _initialized *)
  completer_pending : bool     (* _pvget_completer is not None *)
}.

Definition set_last_value (v : value) (p : snapshot_pv) : snapshot_pv :=
  mk_pv (pvname p) (connected p) (write_access p) (is_array p) v
        (initialized p) (completer_pending p).

Definition set_initialized (b : bool) (p : snapshot_pv) : snapshot_pv :=
  mk_pv (pvname p) (connected p) (write_access p) (is_array p) (last_value p)
        b (completer_pending p).

Definition set_completer (b : bool) (p : snapshot_pv) : snapshot_pv :=
  mk_pv (pvname p) (connected p) (write_access p) (is_array p) (last_value p)
        (initialized p) b.

Inductive pv_status := access_err | ok | no_value | equal | type_err.

(** Observable effects: blocking network operations, synchronous callback
    invocations and non-blocking writes.  A [Put v cb] is a CA put issued with
    [wait=False]; pyepics calls [cb] with [status=PvStatus.ok] when it
    completes. *)
Inductive event :=
| NetComplete                          (* blocking wait for a pending read *)
| NetFetch                             (* blocking PV.get(..., with_ctrlvars=True) *)
| Callback (cb : nat) (st : pv_status) (* callback(pvname=..., status=st) *)
| Put (v : value) (cb : option nat).   (* self.put(v, wait=False, callback=cb) *)

(** A state, writer and exception monad over one PV. *)
Definition M (A : Type) := snapshot_pv -> snapshot_pv * list event * result A.

Definition ret {A} (a : A) : M A := fun p => (p, [], Ret a).
Definition throw {A} (e : pyexn) : M A := fun p => (p, [], Raise e).
Definition bind {A B} (m : M A) (k : A -> M B) : M B :=
  fun p => match m p with
           | (p1, ev1, Ret a) =>
               match k a p1 with (p2, ev2, r) => (p2, (ev1 ++ ev2)%list, r) end
           | (p1, ev1, Raise e) => (p1, ev1, Raise e)
           end.
Definition get_pv : M snapshot_pv := fun p => (p, [], Ret p).
Definition modify (f : snapshot_pv -> snapshot_pv) : M unit := fun p => (f p, [], Ret tt).
Definition emit (e : event) : M unit := fun p => (p, [e], Ret tt).
Definition lift {A} (r : result A) : M A := fun p => (p, [], r).

Notation "x <- c ;; k" := (bind c (fun x => k))
  (at level 61, c at next level, right associativity).
Notation "c ;; k" := (bind c (fun _ => k)) (at level 61, right associativity).

(** Calling the optional [callback] argument: calling [None] is a TypeError. *)
Definition call_cb (cb : option nat) (st : pv_status) : M unit :=
  match cb with
  | Some c => emit (Callback c st)
  | None => throw TypeError
  end.

Section SnapshotPvMethods.

(** Behaviour of pyepics and Channel Access, outside this repository. *)
Variable ca_complete_wait : snapshot_pv -> option value.
  (* ca.get_complete_with_metadata(chid, timeout=None): the value, or None *)
Variable pv_fetch : snapshot_pv -> value.
  (* PV.get(self, use_monitor=False, with_ctrlvars=True) *)
Variable put_accepts : snapshot_pv -> value -> bool.
  (* PV.put does not raise TypeError for this value *)

(** [PvUpdater._get_complete(pv, wait=True)], the completer installed by
    [_get_start] (core.py, lines 456-471). *)
Definition get_complete_wait : M value :=
  p <- get_pv ;;
  if connected p then
    emit NetComplete ;;
    match ca_complete_wait p with
    | None => ret VNone
    | Some v => modify (set_completer false) ;; modify (set_last_value v) ;; ret v
    end
  else ret VNone.

(** [SnapshotPv.get(use_monitor=False, with_ctrlvars=True)]: the branch with
    arguments (core.py, lines 149-160). *)
Definition get_with_args : M value :=
  p <- get_pv ;;
  if completer_pending p then
    val <- get_complete_wait ;;
    if is_none val then ret VNone
    else (p' <- get_pv ;; emit NetFetch ;; ret (pv_fetch p'))
  else (emit NetFetch ;; ret (pv_fetch p)).

(** The [value] property (core.py, lines 128-141). *)
Definition get_value : M value :=
  p <- get_pv ;;
  let v := last_value p in
  if negb (initialized p) then
    modify (set_initialized true) ;;
    v' <- get_with_args ;;
    modify (set_last_value v') ;;
    ret v'
  else ret v.

(** [compare_to_curr] (core.py, lines 283-291). *)
Definition compare_to_curr (v : value) : M bool :=
  cur <- get_value ;;
  p <- get_pv ;;
  lift (compare v cur (is_array p) 0).

(** [restore_pv] (core.py, lines 198-230). *)
Definition restore_pv (v : value) (callback : option nat) : M unit :=
  p <- get_pv ;;
  if connected p then
    if write_access p then
      if is_none v then call_cb callback no_value
      else
        eq <- compare_to_curr v ;;
        if negb eq then
          p' <- get_pv ;;
          if put_accepts p' v then emit (Put v callback)
          else call_cb callback type_err
        else match callback with
             | Some _ => call_cb callback equal
             | None => ret tt
             end
    else match callback with
         | Some _ => call_cb callback access_err
         | None => ret tt
         end
  else match callback with
       | Some _ => call_cb callback access_err
       | None => ret tt
       end.

End SnapshotPvMethods.

(** ** _BackgroundWorkers (core.py, lines 39-73)

    Workers are identified by a number; [WSuspend w] and [WResume w] are the
    calls [w.suspend()] and [w.resume()]. *)

Record bg_workers := mk_bg {
  workers : list nat;   (* _workers *)
  count : Z             (* _count *)
}.

Inductive wevent := WSuspend (w : nat) | WResume (w : nat).

Definition bw_suspend (b : bg_workers) : bg_workers * list wevent :=
  let evs := if Z.eqb (count b) 0 then map WSuspend (workers b) else [] in
  (mk_bg (workers b) (count b + 1)%Z, evs).

Definition bw_resume (b : bg_workers) : bg_workers * list wevent :=
  if Z.ltb 0 (count b) then
    let c := (count b - 1)%Z in
    (mk_bg (workers b) c, if Z.eqb c 0 then map WResume (workers b) else [])
  else (b, []).

Inductive bw_op := OpSuspend | OpResume.

Definition bw_step (b : bg_workers) (op : bw_op) : bg_workers * list wevent :=
  match op with
  | OpSuspend => bw_suspend b
  | OpResume => bw_resume b
  end.

Fixpoint bw_run (b : bg_workers) (ops : list bw_op) : bg_workers * list wevent :=
  match ops with
  | [] => (b, [])
  | op :: ops' =>
      let (b1, e1) := bw_step b op in
      let (b2, e2) := bw_run b1 ops' in
      (b2, (e1 ++ e2)%list)
  end.

(** The values taken by [_count] along a run, initial value first. *)
Fixpoint bw_counts (b : bg_workers) (ops : list bw_op) : list Z :=
  count b :: match ops with
             | [] => []
             | op :: ops' => bw_counts (fst (bw_step b op)) ops'
             end.

(** The worker calls that belong to one change of the counter from [c] to
    [c']: all suspends on 0 -> 1, all resumes on 1 -> 0, nothing otherwise. *)
Definition transition_calls (ws : list nat) (c c' : Z) : list wevent :=
  if Z.eqb c 0 && Z.eqb c' 1 then map WSuspend ws
  else if Z.eqb c 1 && Z.eqb c' 0 then map WResume ws
  else [].

Fixpoint transitions_calls (ws : list nat) (cs : list Z) : list wevent :=
  match cs with
  | c :: ((c' :: _) as cs') => (transition_calls ws c c' ++ transitions_calls ws cs')%list
  | _ => []
  end.

(** ** One update cycle of PvUpdater._run (core.py, lines 446-523)

    The body executed under the lock when the updater is not suspended. *)

Section UpdaterCycle.

Variable get_ctrlvars_ok : snapshot_pv -> bool.
  (* pv.get_ctrlvars() returned something (it can time out) *)
Variable ca_complete_timed : string -> option value.
  (* ca.get_complete_with_metadata(chid, timeout=updateRate) for the named
     channel: [Some v] on success, [None] on timeout or ChannelAccessException *)

(** [_get_start]: a non-blocking read is issued and the completer installed. *)
Definition get_start (p : snapshot_pv) : snapshot_pv :=
  if connected p then set_completer true p else p.

(** [_get_complete(pv)] with [wait=False]. *)
Definition get_complete (p : snapshot_pv) : snapshot_pv * value :=
  if connected p then
    match ca_complete_timed (pvname p) with
    | None => (p, VNone)
    | Some v => (set_last_value v (set_completer false p), v)
    end
  else (p, VNone).

(** The first loop over [self._pvs]: initialisation from the control
    variables, then [_get_start]. *)
Definition init_and_start (p : snapshot_pv) : snapshot_pv :=
  let p1 :=
    if negb (initialized p) && connected p && get_ctrlvars_ok p
    then set_initialized true p else p in
  get_start p1.

(** [vals = [self._get_complete(pv) for pv in self._pvs]] *)
Fixpoint complete_all (ps : list snapshot_pv) : list snapshot_pv * list value :=
  match ps with
  | [] => ([], [])
  | p :: ps' =>
      let (p', v) := get_complete p in
      let (ps'', vs) := complete_all ps' in
      (p' :: ps'', v :: vs)
  end.

Definition update_cycle (ps : list snapshot_pv) : list snapshot_pv * list value :=
  complete_all (map init_and_start ps).

End UpdaterCycle.

(** ** Python string operations used by the parsers *)

(** [str.isspace] on ASCII characters. *)
Definition is_space (c : ascii) : bool :=
  let n := nat_of_ascii c in
  (Nat.leb 9 n && Nat.leb n 13) || (Nat.leb 28 n && Nat.leb n 32).

Fixpoint lstrip (s : string) : string :=
  match s with
  | EmptyString => EmptyString
  | String c s' => if is_space c then lstrip s' else s
  end.

Fixpoint drop_spaces (l : list ascii) : list ascii :=
  match l with
  | [] => []
  | c :: l' => if is_space c then drop_spaces l' else l
  end.

Definition rstrip (s : string) : string :=
  string_of_list_ascii (rev (drop_spaces (rev (list_ascii_of_string s)))).

Definition strip (s : string) : string := rstrip (lstrip s).

Definition startswith (s p : string) : bool := String.prefix p s.

Definition endswith (s p : string) : bool :=
  String.prefix (string_of_list_ascii (rev (list_ascii_of_string p)))
                (string_of_list_ascii (rev (list_ascii_of_string s))).

(** [s[i:]] and [s[1:-1]] *)
Definition drop (i : nat) (s : string) : string :=
  substring i (String.length s - i) s.

Definition slice_1_m1 (s : string) : string :=
  substring 1 (String.length s - 2) s.

(** [s.split(sep, maxsplit=1)] *)
Definition split_once (sep : ascii) (s : string) : list string :=
  match String.index 0 (String sep EmptyString) s with
  | None => [s]
  | Some i => [substring 0 i s; drop (S i) s]
  end.

(** [s.split(sep)] *)
Fixpoint split_all_aux (sep : ascii) (s : string) (cur : list ascii) : list string :=
  match s with
  | EmptyString => [string_of_list_ascii (rev cur)]
  | String c s' =>
      if Ascii.eqb c sep then string_of_list_ascii (rev cur) :: split_all_aux sep s' []
      else split_all_aux sep s' (c :: cur)
  end.

Definition split_all (sep : ascii) (s : string) : list string := split_all_aux sep s [].

(** [s.replace(pat, rep)] for a non-empty [pat]: leftmost, non-overlapping.
    Every step consumes at least one character, so [length s] steps suffice. *)
Fixpoint replace_fuel (fuel : nat) (pat rep s : string) : string :=
  match fuel with
  | 0 => s
  | S f =>
      match s with
      | EmptyString => EmptyString
      | String c s' =>
          if String.prefix pat s
          then (rep ++ replace_fuel f pat rep (drop (String.length pat) s))%string
          else String c (replace_fuel f pat rep s')
      end
  end.

Definition str_replace (pat rep s : string) : string :=
  replace_fuel (String.length s) pat rep s.

(** A Python dict with string keys and values, in insertion order. *)
Definition sdict := list (string * string).

Fixpoint dict_set (k v : string) (d : sdict) : sdict :=
  match d with
  | [] => [(k, v)]
  | (k', v') :: d' =>
      if String.eqb k k' then (k, v) :: d' else (k', v') :: dict_set k v d'
  end.

Definition dict_values (d : sdict) : list string := map snd d.

Definition mem (x : string) (l : list string) : bool := existsb (String.eqb x) l.

(** [SnapshotPv.macros_substitution] (core.py, lines 386-399) *)
Definition macros_substitution (txt : string) (macros : sdict) : string :=
  fold_left (fun t kv => str_replace ("$(" ++ fst kv ++ ")") (snd kv) t) macros txt.

(** [re.compile('\$\(.*?\)').findall(txt)] on a text without newlines (a
    line of a file): a match starts at ["$("] and ends at the first [")"]
    after it; the search resumes after the match. *)
Inductive scan_state := Outside | Dollar | Inside (acc : list ascii).

Fixpoint findall_aux (st : scan_state) (s : string) : list string :=
  match s with
  | EmptyString => []
  | String c s' =>
      match st with
      | Outside =>
          if Ascii.eqb c "$" then findall_aux Dollar s' else findall_aux Outside s'
      | Dollar =>
          if Ascii.eqb c "(" then findall_aux (Inside []) s'
          else if Ascii.eqb c "$" then findall_aux Dollar s'
          else findall_aux Outside s'
      | Inside acc =>
          if Ascii.eqb c ")"
          then ("$(" ++ string_of_list_ascii (rev acc) ++ ")")%string :: findall_aux Outside s'
          else findall_aux (Inside (c :: acc)) s'
      end
  end.

Definition findall_macros (txt : string) : list string := findall_aux Outside txt.

(** [parse_macros] (parser.py, lines 162-180); [None] is MacroError. *)
Definition parse_macros (macros_str : string) : option sdict :=
  if String.eqb macros_str "" then Some []
  else
    fold_left
      (fun acc macro =>
         match acc with
         | None => None
         | Some d =>
             match split_all "=" (strip macro) with
             | [k; v] => Some (dict_set k v d)
             | _ => None
             end
         end)
      (split_all "," macros_str) (Some []).

(** ** SnapshotReqFile (parser.py, lines 12-158) *)

(** [_trace]: the root path, or the parent's trace, the line that called this
    file and this file's path ['{} [line {}: {}] >> {}']. *)
Inductive trace :=
| TRoot (path : string)
| TChild (parent : trace) (line_n : nat) (line : string) (path : string).

Local Set Warnings "-register-all".

Inductive req_file := mk_req {
  rf_path : string;              (* _path, already os.path.abspath'ed *)
  rf_parent : option req_file;   (* _parent *)
  rf_macros : sdict;             (* _macros *)
  rf_c_macros : list string;     (* _c_macros *)
  rf_trace : trace               (* _trace *)
}.

(** The messages put in the exceptions. *)
Inductive err_msg :=
| MsgUndefinedMacros (tokens : list string)
    (* 'Following macros were not defined: {}' *)
| MsgMacroSyntax (macros_str : string)
    (* 'Following string cannot be parsed to macros: {}' *)
| MsgNotQuoted
    (* 'Syntax error. Macros argument must be quoted.' *)
| MsgLoopCalledFrom (path caller : string)
    (* 'Infinity loop detected. File {} was already called from {}' *)
| MsgLoopRoot (path : string).
    (* 'Infinity loop detected. File {} was already loaded as root request file.' *)

(** The raised exceptions; the first three carry the fields of
    [_format_err]: ['{trace} [line {n}: {line}]: {msg}']. *)
Inductive req_error :=
| ReqParseError (tr : trace) (line_n : nat) (line : string) (msg : err_msg)
| ReqFileFormatError (tr : trace) (line_n : nat) (line : string) (msg : err_msg)
| ReqFileInfLoopError (tr : trace) (line_n : nat) (line : string) (msg : err_msg)
| ReqIOError (tr : trace) (line : string) (line_n : nat)
    (* re-raised IOError, formatted with (line, n) in this order *)
| OpenError (path : string)
    (* IOError of open(self._path) *)
| RecursionLimit.
    (* Python's recursion limit, reached by deep include chains *)

Inductive read_result :=
| Pvs (pvs : list string)
| Fail (e : req_error).

Section ReqFileRead.

(** os.path functions. *)
Variable abspath : string -> string.
Variable normpath : string -> string.
Variable join_dirname : string -> string -> string.
  (* os.path.join(os.path.dirname(a), b) *)
(** The file system: the lines of the file at a path, or [None] when it cannot
    be opened. *)
Variable fs : string -> option (list string).

(** [_check_looping] (parser.py, lines 144-158), from a given ancestor. *)
Fixpoint check_looping_from (path : string) (ancestor : req_file) : option err_msg :=
  if String.eqb (normpath (abspath (rf_path ancestor))) path then
    match rf_parent ancestor with
    | Some par => Some (MsgLoopCalledFrom path (rf_path par))
    | None => Some (MsgLoopRoot path)
    end
  else
    match rf_parent ancestor with
    | Some par => check_looping_from path par
    | None => None
    end.

Definition check_looping (self : req_file) (path : string) : option err_msg :=
  check_looping_from (normpath (abspath path)) self.

(** [raw_macro[2:-1]] *)
Definition macro_name (raw : string) : string :=
  substring 2 (String.length raw - 3) raw.

(** [_validate_macros_in_txt] (parser.py, lines 132-142); [Some msg] is the
    MacroError. *)
Definition invalid_macros (self : req_file) (txt : string) : list string :=
  filter (fun raw => negb (mem raw (dict_values (rf_macros self)))
                     && negb (mem (macro_name raw) (rf_c_macros self)))
         (findall_macros txt).

Definition validate_macros_in_txt (self : req_file) (txt : string) : option err_msg :=
  match invalid_macros self txt with
  | [] => None
  | invalid => Some (MsgUndefinedMacros invalid)
  end.

Definition is_skipped_prefix (line : string) : bool :=
  startswith line "#" || startswith line "data{" || startswith line "}"
  || startswith line "!".

(** The macros argument of an include line, [split_line[1]] (lines 86-110). *)
Definition include_macros (self : req_file) (n : nat) (line : string)
  (split_line : list string) : sum sdict req_error :=
  match split_line with
  | _ :: arg :: _ =>
      let macro_txt := strip arg in
      if negb (startswith macro_txt (String (ascii_of_nat 34) EmptyString) || startswith macro_txt "'") then
        inr (ReqFileFormatError (rf_trace self) n line MsgNotQuoted)
      else
        let quote_type := substring 0 1 macro_txt in
        if negb (endswith macro_txt quote_type) then
          inr (ReqFileFormatError (rf_trace self) n line MsgNotQuoted)
        else
          let macro_txt := macros_substitution (slice_1_m1 macro_txt) (rf_macros self) in
          match validate_macros_in_txt self macro_txt with
          | Some m => inr (ReqParseError (rf_trace self) n line m)
          | None =>
              match parse_macros macro_txt with
              | Some d => inl d
              | None => inr (ReqParseError (rf_trace self) n line (MsgMacroSyntax macro_txt))
              end
          end
  | _ => inl []
  end.

(** The body of the loop of [read] for one (stripped) line [line] with number
    [n] (parser.py, lines 63-125); [sub_read] reads an included file. *)
Definition process_line (sub_read : req_file -> read_result)
  (self : req_file) (n : nat) (line : string) : read_result :=
  if negb (is_skipped_prefix line) && negb (String.eqb (strip line) "") then
    let pvname := macros_substitution (hd "" (split_once "," (rstrip line)))
                                      (rf_macros self) in
    match validate_macros_in_txt self pvname with
    | Some m => Fail (ReqParseError (rf_trace self) n line m)
    | None => Pvs [pvname]
    end
  else if startswith line "!" then
    let split_line := split_once "," (drop 1 line) in
    match include_macros self n line split_line with
    | inr e => Fail e
    | inl macros =>
        let path := join_dirname (rf_path self) (hd "" split_line) in
        match check_looping self path with
        | Some msg => Fail (ReqFileInfLoopError (rf_trace self) n line msg)
        | None =>
            let sub_path := abspath path in
            let sub_f := mk_req sub_path (Some self) macros []
                                (TChild (rf_trace self) n line sub_path) in
            match sub_read sub_f with
            | Pvs sub_pvs => Pvs sub_pvs
            | Fail (OpenError _) | Fail (ReqIOError _ _ _) =>
                Fail (ReqIOError (rf_trace self) line n)
            | Fail e => Fail e
            end
        end
    end
  else Pvs [].

(** The loop over the lines of the file. *)
Fixpoint read_loop (sub_read : req_file -> read_result) (self : req_file)
  (n : nat) (lines : list string) (pvs : list string) : read_result :=
  match lines with
  | [] => Pvs pvs
  | raw :: rest =>
      let n := S n in
      let line := strip raw in
      match process_line sub_read self n line with
      | Pvs new => read_loop sub_read self n rest (pvs ++ new)
      | Fail e => Fail e
      end
  end.

(** [read] (parser.py, lines 47-127); [fuel] bounds the depth of nested
    reads, as Python's recursion limit does. *)
Fixpoint read (fuel : nat) (self : req_file) : read_result :=
  match fuel with
  | 0 => Fail RecursionLimit
  | S fuel' =>
      match fs (rf_path self) with
      | None => Fail (OpenError (rf_path self))
      | Some lines => read_loop (read fuel') self 0 lines []
      end
  end.

End ReqFileRead.

(** A root request file: [SnapshotReqFile(path, macros=..., changeable_macros=...)]. *)
Definition root_req (abspath : string -> string) (path : string) (macros : sdict)
  (c_macros : list string) : req_file :=
  mk_req (abspath path) None macros c_macros (TRoot (abspath path)).

(** The chain of [_parent] links from a file up to the root, the file itself
    first. *)
Fixpoint ancestors (f : req_file) : list req_file :=
  f :: match rf_parent f with
       | Some par => ancestors par
       | None => []
       end.

(** The last path of a trace: the file the trace belongs to. *)
Definition trace_path (t : trace) : string :=
  match t with TRoot p => p | TChild _ _ _ p => p end.

(** ** parse_from_save_file (parser.py, lines 295-360) *)

(** Decoded JSON documents. *)
Inductive json :=
| JNull
| JBool (b : bool)
| JNum (q : Q)
| JStr (s : string)
| JList (l : list json)
| JObj (kvs : list (string * json)).

(** The shape numpy gives to a nested list: the length of each level, as long
    as the nesting is regular.  [None]: an inhomogeneous nesting, for which
    [numpy.asarray] raises ValueError (NumPy 1.24 and later). *)
Fixpoint json_shape (j : json) : option (list nat) :=
  match j with
  | JList l =>
      let fix shapes (l : list json) : option (list (list nat)) :=
        match l with
        | [] => Some []
        | x :: xs =>
            match json_shape x, shapes xs with
            | Some s, Some ss => Some (s :: ss)
            | _, _ => None
            end
        end in
      match shapes l with
      | None => None
      | Some [] => Some [0]
      | Some (s :: ss) =>
          if forallb (fun s' => if list_eq_dec Nat.eq_dec s s' then true else false) ss
          then Some (List.length l :: s) else None
      end
  | _ => Some []
  end.

(** A value stored in [saved_pvs[pvname]['value']]. *)
Inductive saved_value :=
| SVNone                  (* None *)
| SVJson (j : json)       (* a decoded scalar or object *)
| SVArray (j : json).     (* numpy.asarray(<decoded list>) *)

(** [numpy.asarray] applied to decoded lists (line 346-349). *)
Definition as_saved (j : json) : result saved_value :=
  match j with
  | JList _ =>
      match json_shape j with
      | Some _ => Ret (SVArray j)
      | None => Raise ValueError
      end
  | _ => Ret (SVJson j)
  end.

Inductive parse_err :=
| ErrMetaDecode                (* 'Meta data could not be decoded. ...' *)
| ErrValueDecode (pv : string) (* 'Value of '{}' cannot be decoded. ...' *)
| ErrNoMeta.                   (* 'No meta data in the file.' *)

Record parse_state := mk_ps {
  ps_saved : list (string * saved_value);   (* saved_pvs, in insertion order *)
  ps_meta : json;                           (* meta_data *)
  ps_err : list parse_err;                  (* err *)
  ps_meta_loaded : bool                     (* meta_loaded *)
}.

Fixpoint pv_set (k : string) (v : saved_value) (d : list (string * saved_value))
  : list (string * saved_value) :=
  match d with
  | [] => [(k, v)]
  | (k', v') :: d' => if String.eqb k k' then (k, v) :: d' else (k', v') :: pv_set k v d'
  end.

Section SaveFile.

Variable json_loads : string -> option json.
  (* json.loads: [None] is JSONDecodeError *)

(** One data line (lines 333-354). *)
Definition parse_data_line (st : parse_state) (line : string) : result parse_state :=
  let split_line := split_once "," (strip line) in
  let pvname := hd "" split_line in
  let '(decoded, err) :=
    match split_line with
    | _ :: pv_value_str :: _ =>
        match json_loads pv_value_str with
        | Some j => (Some j, ps_err st)
        | None => (None, (ps_err st ++ [ErrValueDecode pvname])%list)
        end
    | _ => (None, ps_err st)
    end in
  let value :=
    match decoded with
    | Some j => as_saved j
    | None => Ret SVNone
    end in
  match value with
  | Raise e => Raise e
  | Ret v => Ret (mk_ps (pv_set pvname v (ps_saved st)) (ps_meta st) err (ps_meta_loaded st))
  end.

(** The loop over the lines (lines 316-354); a line keeps its newline. *)
Fixpoint parse_lines (metadata_only : bool) (lines : list string) (st : parse_state)
  : result parse_state :=
  match lines with
  | [] => Ret st
  | line :: rest =>
      if startswith line "#" && negb (ps_meta_loaded st) then
        let st' :=
          match json_loads (drop 1 line) with
          | Some m => mk_ps (ps_saved st) m (ps_err st) true
          | None => mk_ps (ps_saved st) (ps_meta st) (ps_err st ++ [ErrMetaDecode])%list true
          end in
        if metadata_only then Ret st' else parse_lines metadata_only rest st'
      else if negb metadata_only && negb (String.eqb (strip line) "")
              && negb (startswith line "#") then
        match parse_data_line st line with
        | Raise e => Raise e
        | Ret st' => parse_lines metadata_only rest st'
        end
      else parse_lines metadata_only rest st
  end.

Definition parse_from_save_file (lines : list string) (metadata_only : bool)
  : result (list (string * saved_value) * json * list parse_err) :=
  match parse_lines metadata_only lines (mk_ps [] (JObj []) [] false) with
  | Raise e => Raise e
  | Ret st =>
      let err := if ps_meta_loaded st then ps_err st else ErrNoMeta :: ps_err st in
      Ret (ps_saved st, ps_meta st, err)
  end.

End SaveFile.

(** ** process_record (core.py, lines 33-36)

    The arguments of the [caput] it issues: the PV name and the value. *)
Definition process_record (pvname : string) : string * Z :=
  let record := hd "" (split_all "." pvname) in
  ((record ++ ".PROC")%string, 1%Z).

(** ** _BackgroundWorkers.register and unregister (core.py, lines 67-73) *)

Definition bw_register (worker : nat) (b : bg_workers) : bg_workers :=
  if existsb (Nat.eqb worker) (workers b) then b
  else mk_bg (workers b ++ [worker])%list (count b).

(** [list.index]: the position of the first occurrence; [None] is the
    ValueError raised for a missing element. *)
Fixpoint list_index (x : nat) (l : list nat) : option nat :=
  match l with
  | [] => None
  | y :: l' => if Nat.eqb x y then Some 0 else option_map S (list_index x l')
  end.

(** [del l[i]] for an index in range. *)
Fixpoint del_at (i : nat) (l : list nat) : list nat :=
  match l, i with
  | [], _ => []
  | _ :: l', 0 => l'
  | y :: l', S i' => y :: del_at i' l'
  end.

Definition bw_unregister (worker : nat) (b : bg_workers) : result bg_workers :=
  match list_index worker (workers b) with
  | None => Raise ValueError
  | Some idx => Ret (mk_bg (del_at idx (workers b)) (count b))
  end.

(** [PvUpdater.suspend] and [PvUpdater.resume] (core.py, lines 430-436) set
    the [_suspend] flag of the worker they are called on; [flags w] is the
    flag of worker [w]. *)
Definition apply_wevent (flags : nat -> bool) (e : wevent) : nat -> bool :=
  match e with
  | WSuspend w => fun x => if Nat.eqb x w then true else flags x
  | WResume w => fun x => if Nat.eqb x w then false else flags x
  end.

Definition apply_wevents (flags : nat -> bool) (evs : list wevent) : nat -> bool :=
  fold_left apply_wevent evs flags.

(** Every registered worker is suspended exactly when the counter is
    positive. *)
Definition flags_consistent (b : bg_workers) (flags : nat -> bool) : Prop :=
  forall w, In w (workers b) -> flags w = negb (Z.eqb (count b) 0).

(** ** Connection callbacks of SnapshotPv (core.py, lines 331-384)

    [conn_callbacks]: a dict from indices to callbacks, callbacks being
    numbered; insertion order is kept, as in a Python dict. *)
Definition cb_dict := list (nat * nat).

Fixpoint cb_lookup (k : nat) (d : cb_dict) : option nat :=
  match d with
  | [] => None
  | (k', v) :: d' => if Nat.eqb k k' then Some v else cb_lookup k d'
  end.

Fixpoint cb_set (k v : nat) (d : cb_dict) : cb_dict :=
  match d with
  | [] => [(k, v)]
  | (k', v') :: d' => if Nat.eqb k k' then (k, v) :: d' else (k', v') :: cb_set k v d'
  end.

Fixpoint cb_pop (k : nat) (d : cb_dict) : cb_dict :=
  match d with
  | [] => []
  | (k', v') :: d' => if Nat.eqb k k' then d' else (k', v') :: cb_pop k d'
  end.

(** [add_conn_callback]: the new dict and the returned index. *)
Definition add_conn_callback (callback : nat) (d : cb_dict) : cb_dict * nat :=
  let idx := match d with
             | [] => 0
             | _ :: _ => 1 + list_max (map fst d)
             end in
  (cb_set idx callback d, idx).

Definition remove_conn_callback (idx : nat) (d : cb_dict) : cb_dict :=
  if existsb (Nat.eqb idx) (map fst d) then cb_pop idx d else d.

(** [_internal_cnct_callback(conn)]: [is_array] is set from
    [ca.element_count(self.chid) > 1], then each connection callback is
    called with [conn], in the order of the dict. *)
Definition internal_cnct_callback (element_count : nat) (conn : bool)
  (d : cb_dict) (p : snapshot_pv) : snapshot_pv * list (nat * bool) :=
  (mk_pv (pvname p) (connected p) (write_access p) (Nat.ltb 1 element_count)
         (last_value p) (initialized p) (completer_pending p),
   map (fun cb => (cb, conn)) (map snd d)).

(** ** SnapshotPv.save_pv (core.py, lines 164-196) *)

(** The value returned by [save_pv]: a value, or the object array
    [numpy.asarray([None])], which is not [None]. *)
Inductive saved_pv_value :=
| SavedValue (v : value)
| SavedNoneArray.

(** [numpy.asarray([saved_value])] *)
Definition np_asarray_wrap (v : value) : saved_pv_value :=
  match v with
  | VNone => SavedNoneArray
  | _ => SavedValue (np_array_wrap v)
  end.

Definition saved_is_none (s : saved_pv_value) : bool :=
  match s with SavedValue VNone => true | _ => false end.

Section SavePv.

Variable ca_complete_wait : snapshot_pv -> option value.
Variable pv_get : snapshot_pv -> value.
  (* PV.get(self, use_monitor=False) *)
Variable read_access : snapshot_pv -> bool.
  (* PV.read_access *)

Definition save_pv : M (saved_pv_value * pv_status) :=
  p <- get_pv ;;
  if connected p then
    if read_access p then
      v <- get_with_args ca_complete_wait pv_get ;;
      let saved_value :=
        if is_array p then
          if Nat.eqb (np_size v) 0 then SavedValue VNone
          else if Nat.eqb (np_size v) 1 then np_asarray_wrap v
          else SavedValue v
        else SavedValue v in
      if saved_is_none saved_value then ret (saved_value, no_value)
      else ret (saved_value, ok)
    else ret (SavedValue VNone, access_err)
  else ret (SavedValue VNone, access_err).

End SavePv.

(** Events that carry the callback of [restore_pv]: a call of it, or a put
    that calls it on completion. *)
Definition is_cb_event (e : event) : bool :=
  match e with Callback _ _ | Put _ _ => true | _ => false end.

Definition is_put (e : event) : bool :=
  match e with Put _ _ => true | _ => false end.

(** A value holds no NaN. *)
Definition nan_free (v : value) : bool :=
  forallb (fun x => match x with SNum NaN => false | _ => true end) (elems v).

(** ** Formatting of a macros string, as [parse_macros] reads it:
    ['K1=V1,K2=V2'] *)
Definition join_macros (d : sdict) : string :=
  String.concat "," (map (fun kv => fst kv ++ "=" ++ snd kv) d).

(** A run of events with no connection-callback call in it. *)
Definition no_cb_events (evs : list event) : bool :=
  forallb (fun e => negb (is_cb_event e)) evs.

(** A pair of array elements, swapped. *)
Definition swap_pair (p : scalar * scalar) : scalar * scalar := (snd p, fst p).

(** A macro name and value that [join_macros] writes so that
    [parse_macros] reads them back: no [','] or ['='] in them, and no
    whitespace that [strip] would remove. *)
Definition macro_text_ok (k v : string) : Prop :=
  ~ In ","%char (list_ascii_of_string k) /\ ~ In "="%char (list_ascii_of_string k) /\
  ~ In ","%char (list_ascii_of_string v) /\ ~ In "="%char (list_ascii_of_string v) /\
  lstrip k = k /\ rstrip v = v.

(** ** Theorems *)

(** *** Binary64 rounding: exponents and monotonicity *)

Lemma two_nz : ~ (2 # 1 == 0)%Q.
Proof. discriminate. Qed.

Lemma pow2_pos (e : Z) : (0 < pow2 e)%Q.
Proof. apply Qpower_0_lt. reflexivity. Qed.

Lemma pow2_plus (a b : Z) : (pow2 (a + b) == pow2 a * pow2 b)%Q.
Proof. apply Qpower_plus. exact two_nz. Qed.

Lemma pow2_le (a b : Z) : (a <= b)%Z -> (pow2 a <= pow2 b)%Q.
Proof. intros H. apply Qpower_le_compat_l; [exact H | discriminate]. Qed.

Lemma pow2_lt (a b : Z) : (a < b)%Z -> (pow2 a < pow2 b)%Q.
Proof. intros H. apply Qpower_lt_compat_l; [exact H | reflexivity]. Qed.

Lemma pow2_inject (e : Z) : (0 <= e)%Z -> (pow2 e == inject_Z (2 ^ e))%Q.
Proof. intros H. unfold pow2. rewrite Zpower_Qpower by exact H. reflexivity. Qed.

Lemma pow2_opp_mul (e : Z) : (pow2 (- e) * pow2 e == 1)%Q.
Proof.
  rewrite <- pow2_plus. replace (- e + e)%Z with 0%Z by lia. reflexivity.
Qed.

Lemma lg_spec (q : Q) : (0 < q)%Q -> (pow2 (lg q) <= q /\ q < pow2 (lg q + 1))%Q.
Proof.
  intros Hq. destruct q as [n d]. unfold Qlt in Hq. simpl in Hq.
  assert (Hn : (0 < n)%Z) by lia.
  set (ln := Z.log2 n). set (ld := Z.log2 (Zpos d)).
  destruct (Z.log2_spec n Hn) as [Hn1 Hn2].
  destruct (Z.log2_spec (Zpos d) eq_refl) as [Hd1 Hd2].
  fold ln in Hn1, Hn2. fold ld in Hd1, Hd2.
  assert (Hln : (0 <= ln)%Z) by apply Z.log2_nonneg.
  assert (Hld : (0 <= ld)%Z) by apply Z.log2_nonneg.
  assert (Eq : (n # d == inject_Z n * / inject_Z (Zpos d))%Q).
  { unfold Qeq, Qmult, Qinv, inject_Z. simpl. lia. }
  assert (Hdq : (0 < inject_Z (Zpos d))%Q) by (unfold Qlt; simpl; lia).
  (* pow2 (ln - ld - 1) < q *)
  assert (A : (pow2 (ln - ld - 1) < n # d)%Q).
  { rewrite Eq. apply Qlt_shift_div_l; [exact Hdq|].
    apply (Qlt_le_trans _ (pow2 (ln - ld - 1) * pow2 (ld + 1))).
    - apply Qmult_lt_l; [apply pow2_pos|].
      rewrite (pow2_inject (ld + 1)) by lia. unfold Qlt. simpl. rewrite Z.add_1_r. lia.
    - rewrite <- pow2_plus. replace (ln - ld - 1 + (ld + 1))%Z with ln by lia.
      rewrite (pow2_inject ln) by lia. unfold Qle. simpl. lia. }
  assert (B : (n # d < pow2 (ln - ld + 1))%Q).
  { rewrite Eq. apply Qlt_shift_div_r; [exact Hdq|].
    apply (Qlt_le_trans _ (pow2 (ln - ld + 1) * pow2 ld)).
    - rewrite <- pow2_plus. replace (ln - ld + 1 + ld)%Z with (Z.succ ln) by lia.
      rewrite (pow2_inject (Z.succ ln)) by lia. unfold Qlt. simpl. lia.
    - apply Qmult_le_l; [apply pow2_pos|].
      rewrite (pow2_inject ld) by lia. unfold Qle. simpl. lia. }
  unfold lg. simpl Qnum. simpl Qden. fold ln ld.
  destruct (Qle_bool (pow2 (ln - ld)) (n # d)) eqn:E; simpl.
  - apply Qle_bool_iff in E. split; [exact E|].
    replace (ln - ld + 1)%Z with (ln - ld + 1)%Z by lia. exact B.
  - split.
    + apply Qlt_le_weak. replace (ln - ld - 1)%Z with (ln - ld - 1)%Z by lia. exact A.
    + replace (ln - ld - 1 + 1)%Z with (ln - ld)%Z by lia.
      apply Qnot_le_lt. intros H. apply Qle_bool_iff in H. congruence.
Qed.

Lemma lg_mono (q1 q2 : Q) : (0 < q1)%Q -> (q1 <= q2)%Q -> (lg q1 <= lg q2)%Z.
Proof.
  intros H1 H12.
  assert (H2 : (0 < q2)%Q) by (eapply Qlt_le_trans; eauto).
  destruct (lg_spec q1 H1) as [A1 B1]. destruct (lg_spec q2 H2) as [A2 B2].
  destruct (Z.le_gt_cases (lg q1) (lg q2)) as [|Hc]; [assumption|exfalso].
  assert (Hp : (pow2 (lg q2 + 1) <= pow2 (lg q1))%Q) by (apply pow2_le; lia).
  apply (Qlt_irrefl q2).
  apply (Qlt_le_trans _ _ _ B2). apply (Qle_trans _ _ _ Hp).
  apply (Qle_trans _ _ _ A1 H12).
Qed.

Lemma fexp_mono (q1 q2 : Q) : (0 < q1)%Q -> (q1 <= q2)%Q -> (fexp q1 <= fexp q2)%Z.
Proof. intros H1 H12. unfold fexp. pose proof (lg_mono q1 q2 H1 H12). lia. Qed.

Lemma rne_div_mono (a1 b1 a2 b2 : Z) :
  (0 < b1)%Z -> (0 < b2)%Z -> (a1 * b2 <= a2 * b1)%Z -> (rne_div a1 b1 <= rne_div a2 b2)%Z.
Proof.
  intros Hb1 Hb2 H. unfold rne_div.
  pose proof (Z.div_mod a1 b1 ltac:(lia)) as E1.
  pose proof (Z.div_mod a2 b2 ltac:(lia)) as E2.
  pose proof (Z.mod_pos_bound a1 b1 Hb1) as R1.
  pose proof (Z.mod_pos_bound a2 b2 Hb2) as R2.
  set (f1 := (a1 / b1)%Z) in *. set (r1 := (a1 mod b1)%Z) in *.
  set (f2 := (a2 / b2)%Z) in *. set (r2 := (a2 mod b2)%Z) in *.
  assert (Hf : (f1 <= f2)%Z).
  { destruct (Z.le_gt_cases f1 f2) as [|Hc]; [assumption|exfalso].
    assert (Hc' : (f2 + 1 <= f1)%Z) by lia.
    assert ((b1 * (f2 + 1)) * b2 <= (b1 * f1) * b2)%Z by (apply Z.mul_le_mono_nonneg_r; nia).
    nia. }
  destruct (Z.eq_dec f1 f2) as [Ef|Ef].
  - rewrite <- Ef in *.
    assert (Hr : (r1 * b2 <= r2 * b1)%Z) by nia.
    destruct (Z.compare_spec (2 * r1) b1), (Z.compare_spec (2 * r2) b2);
      try destruct (Z.even f1); try lia; nia.
  - destruct (Z.compare (2 * r1) b1), (Z.compare (2 * r2) b2);
      try destruct (Z.even f1); try destruct (Z.even f2); lia.
Qed.

Lemma rne_div_one (k : Z) : rne_div k 1 = k.
Proof. unfold rne_div. rewrite Z.div_1_r, Z.mod_1_r. reflexivity. Qed.

Lemma rne_mono (x y : Q) : (x <= y)%Q -> (rne x <= rne y)%Z.
Proof. intros H. unfold rne. apply rne_div_mono; [lia | lia | exact H]. Qed.

Lemma rne_inject (k : Z) : rne (inject_Z k) = k.
Proof. apply rne_div_one. Qed.

Lemma rne_ge (k : Z) (x : Q) : (inject_Z k <= x)%Q -> (k <= rne x)%Z.
Proof. intros H. rewrite <- (rne_inject k) at 1. apply rne_mono, H. Qed.

Lemma rne_le (k : Z) (x : Q) : (x <= inject_Z k)%Q -> (rne x <= k)%Z.
Proof. intros H. rewrite <- (rne_inject k). apply rne_mono, H. Qed.

Lemma round_pos_nonneg (q : Q) : (0 <= q)%Q -> (0 <= round_pos q)%Q.
Proof.
  intros H. unfold round_pos. apply Qmult_le_0_compat; [|apply Qlt_le_weak, pow2_pos].
  assert (0 <= rne (q * pow2 (- fexp q)))%Z.
  { apply rne_ge. apply Qmult_le_0_compat; [exact H | apply Qlt_le_weak, pow2_pos]. }
  unfold Qle. simpl. lia.
Qed.

Lemma inject_Z_le (a b : Z) : (a <= b)%Z -> (inject_Z a <= inject_Z b)%Q.
Proof. intros H. unfold Qle. simpl. lia. Qed.

Lemma pow2_shift (e k : Z) : (pow2 k == pow2 (e + k) * pow2 (- e))%Q.
Proof. rewrite <- pow2_plus. replace (e + k + - e)%Z with k by lia. reflexivity. Qed.

Lemma round_pos_mono (q1 q2 : Q) : (0 < q1)%Q -> (q1 <= q2)%Q -> (round_pos q1 <= round_pos q2)%Q.
Proof.
  intros H1 H12.
  assert (H2 : (0 < q2)%Q) by (eapply Qlt_le_trans; eauto).
  pose proof (fexp_mono q1 q2 H1 H12) as He.
  unfold round_pos. set (e1 := fexp q1) in *. set (e2 := fexp q2) in *.
  assert (P1 := pow2_pos e1). assert (P2 := pow2_pos e2).
  destruct (Z.eq_dec e1 e2) as [E|E].
  - rewrite <- E. apply Qmult_le_compat_r; [|apply Qlt_le_weak, P1].
    apply inject_Z_le, rne_mono. apply Qmult_le_compat_r; [exact H12 | apply Qlt_le_weak, pow2_pos].
  - assert (E2 : e2 = (lg q2 - 52)%Z) by (unfold e2, e1, fexp in *; lia).
    assert (E1 : (lg q1 - 52 <= e1)%Z) by (unfold e1, fexp; lia).
    destruct (lg_spec q1 H1) as [_ B1]. destruct (lg_spec q2 H2) as [A2 _].
    apply (Qle_trans _ (pow2 (e1 + 53))); [|apply (Qle_trans _ (pow2 (e2 + 52)))].
    + rewrite pow2_plus, (Qmult_comm (pow2 e1)).
      apply Qmult_le_compat_r; [|apply Qlt_le_weak, P1].
      rewrite (pow2_inject 53) by lia. apply inject_Z_le, rne_le.
      rewrite <- (pow2_inject 53) by lia. rewrite (pow2_shift e1 53).
      apply Qmult_le_compat_r; [|apply Qlt_le_weak, pow2_pos].
      apply Qlt_le_weak. apply (Qlt_le_trans _ _ _ B1). apply pow2_le. lia.
    + apply pow2_le. lia.
    + rewrite pow2_plus, (Qmult_comm (pow2 e2)).
      apply Qmult_le_compat_r; [|apply Qlt_le_weak, P2].
      rewrite (pow2_inject 52) by lia. apply inject_Z_le, rne_ge.
      rewrite <- (pow2_inject 52) by lia. rewrite (pow2_shift e2 52).
      apply Qmult_le_compat_r; [|apply Qlt_le_weak, pow2_pos].
      replace (e2 + 52)%Z with (lg q2) by lia. exact A2.
Qed.

Lemma round_abs_nonneg (q : Q) : (0 <= round_abs q)%Q.
Proof.
  unfold round_abs. destruct (Qle_bool q 0) eqn:E; [apply Qle_refl|].
  apply round_pos_nonneg. apply Qlt_le_weak, Qnot_le_lt. intros H.
  apply Qle_bool_iff in H. congruence.
Qed.

Lemma round_abs_mono (q1 q2 : Q) : (q1 <= q2)%Q -> (round_abs q1 <= round_abs q2)%Q.
Proof.
  intros H12. unfold round_abs at 1. destruct (Qle_bool q1 0) eqn:E1.
  - apply round_abs_nonneg.
  - assert (H1 : (0 < q1)%Q) by (apply Qnot_le_lt; intros H; apply Qle_bool_iff in H; congruence).
    unfold round_abs. destruct (Qle_bool q2 0) eqn:E2.
    + apply Qle_bool_iff in E2. exfalso. apply (Qlt_irrefl 0).
      apply (Qlt_le_trans _ _ _ H1). apply (Qle_trans _ _ _ H12 E2).
    + apply round_pos_mono; assumption.
Qed.

Lemma round_abs_proper (x y : Q) : (x == y)%Q -> (round_abs x == round_abs y)%Q.
Proof.
  intros E. apply Qle_antisym; apply round_abs_mono; rewrite E; apply Qle_refl.
Qed.

Lemma Qabs_minus_comm (p q : Q) : Qabs (p - q) = Qabs (q - p).
Proof.
  destruct p as [a b], q as [c d]. unfold Qabs, Qminus, Qplus, Qopp. simpl.
  f_equal; [|apply Pos.mul_comm]. rewrite <- Z.abs_opp. f_equal. lia.
Qed.

Lemma Qle_bool_compat_l (x y t : Q) : (x == y)%Q -> Qle_bool x t = Qle_bool y t.
Proof.
  intros E. apply Bool.eq_iff_eq_true. rewrite !Qle_bool_iff, E. reflexivity.
Qed.

(** The test of [numpy.isclose] on two finite numbers, on the rounded
    magnitude of their difference. *)
Lemma num_isclose_fin (t p q : Q) :
  num_isclose t (Fin p) (Fin q) =
  negb (Qle_bool (pow2 1024) (round_abs (Qabs (p - q)))) &&
  Qle_bool (round_abs (Qabs (p - q))) t.
Proof.
  unfold num_isclose, round64.
  destruct (Qle_bool (pow2 1024) (round_abs (Qabs (p - q))));
    [destruct (negb (Qle_bool 0 (p - q))); reflexivity|]. simpl.
  assert (H0 := round_abs_nonneg (Qabs (p - q))).
  destruct (negb (Qle_bool 0 (p - q))); apply Qle_bool_compat_l;
    [rewrite Qabs_opp|]; apply Qabs_pos; exact H0.
Qed.

Lemma num_isclose_refl (t q : Q) : (0 <= t)%Q -> num_isclose t (Fin q) (Fin q) = true.
Proof.
  intros Ht. rewrite num_isclose_fin.
  assert (E : round_abs (Qabs (q - q)) = 0%Q).
  { unfold round_abs. replace (Qle_bool (Qabs (q - q)) 0) with true; [reflexivity|].
    symmetry. apply Qle_bool_iff. setoid_replace (q - q)%Q with 0%Q by ring. apply Qle_refl. }
  rewrite E. apply andb_true_iff. split; [reflexivity | apply Qle_bool_iff; exact Ht].
Qed.

Lemma num_isclose_sym (t : Q) (a b : num) : num_isclose t b a = num_isclose t a b.
Proof.
  destruct a as [p| | |], b as [q| | |];
    try (rewrite !num_isclose_fin, Qabs_minus_comm; reflexivity); reflexivity.
Qed.



Example compare_example_equal :
  compare (VArray [SNum (Fin 1); SNum (Fin 2)]) (VArray [SNum (Fin 1); SNum (Fin 2)]) true 0
  = Ret true.
Proof. reflexivity. Qed.

Example compare_example_strings :
  compare (VArray [SStr "a"]) (VScalar (SStr "a")) true 0 = Ret true.
Proof. reflexivity. Qed.





(** C3, counterexample: a one-element array holding NaN does not compare
    equal to the scalar NaN (here at tolerance 0). *)
Lemma compare_nan_array_vs_scalar :
  compare (VArray [SNum NaN]) (VScalar (SNum NaN)) true 0 = Ret false.
Proof. reflexivity. Qed.

(** C3 (amended): with [is_array = true], a non-array value of size 1 is
    wrapped into a one-element array and a size-0 value becomes [None]; for
    every scalar [x] other than NaN, the array [[x]] and the scalar [x]
    compare equal in both orders; the empty array compares equal exactly to
    the values that normalise to [None], so never to a numeric zero; and
    when one normalised operand is [None] the result is true iff both are. *)
Theorem compare_array_normalisation :
  (forall v, is_none v = false -> is_ndarray v = false -> np_size v = 1 ->
     normalize v = np_array_wrap v /\ is_ndarray (normalize v) = true
     /\ np_size (normalize v) = 1) /\
  (forall v, np_size v = 0 -> normalize v = VNone) /\
  (forall (x : scalar) (t : Q), x <> SNum NaN -> (0 <= t)%Q ->
     compare (VArray [x]) (VScalar x) true t = Ret true /\
     compare (VScalar x) (VArray [x]) true t = Ret true) /\
  (forall v t, compare (VArray []) v true t = Ret (is_none (normalize v))) /\
  (forall t, compare (VArray []) (VScalar (SNum (Fin 0))) true t = Ret false) /\
  (forall v1 v2 t, is_none (normalize v1) || is_none (normalize v2) = true ->
     compare v1 v2 true t = Ret (is_none (normalize v1) && is_none (normalize v2))).
Proof.
  split; [| split; [| split; [| split; [| split]]]].
  - intros v Hn Ha Hs. unfold normalize. rewrite Hn, Ha, Hs. simpl.
    destruct v; simpl in *; try discriminate; repeat split;
      destruct xs as [| ? [| ? ?]]; simpl in *; congruence.
  - intros v Hs. unfold normalize. rewrite Hs.
    destruct v; simpl in *; try discriminate; reflexivity.
  - intros x t Hx Ht.
    destruct x as [n | s].
    + destruct n as [q | | |]; [| | | congruence];
        unfold compare, allclose; cbn -[num_isclose]; split;
        try reflexivity; now rewrite num_isclose_refl.
    + unfold compare, allclose, array_equal; simpl.
      rewrite String.eqb_refl. split; reflexivity.
  - intros v t. unfold compare. simpl.
    destruct (is_none (normalize v)); reflexivity.
  - intros t. reflexivity.
  - intros v1 v2 t H. unfold compare. simpl. now rewrite H.
Qed.

Lemma compare_array_normalisation_witness :
  (SNum (Fin 5) <> SNum NaN /\ (0 <= 0)%Q) /\
  compare (VArray [SNum (Fin 5)]) (VScalar (SNum (Fin 5))) true 0 = Ret true.
Proof.
  assert (H1 : SNum (Fin 5) <> SNum NaN) by discriminate.
  assert (H2 : (0 <= 0)%Q) by (vm_compute; discriminate).
  split; [split; assumption |].
  apply (proj1 (proj1 (proj2 (proj2 compare_array_normalisation)) (SNum (Fin 5)) 0%Q H1 H2)).
Defined.

(** C1, failing input: restoring a three-element waveform to a connected,
    writable waveform PV whose cached value has two elements.  [compare]
    raises ValueError from [numpy.allclose], which [restore_pv] does not catch:
    no write is issued and the callback is never invoked. *)
Theorem restore_pv_length_mismatch_raises
  (ca : snapshot_pv -> option value) (fetch : snapshot_pv -> value)
  (accepts : snapshot_pv -> value -> bool) :
  let p := mk_pv "WF" true true true (VArray [SNum (Fin 1); SNum (Fin 2)]) true false in
  restore_pv ca fetch accepts (VArray [SNum (Fin 1); SNum (Fin 2); SNum (Fin 3)]) (Some 0) p
  = (p, [], Raise ValueError).
Proof. reflexivity. Qed.

(** The result of [restore_pv] once [compare_to_curr] has been evaluated. *)
Lemma restore_pv_after_compare ca fetch accepts p v cb p' evs eq :
  connected p = true -> write_access p = true -> is_none v = false ->
  compare_to_curr ca fetch v p = (p', evs, Ret eq) ->
  restore_pv ca fetch accepts v cb p =
  (let '(p2, evs2, r) :=
     (if negb eq then
        (if accepts p' v then emit (Put v cb) else call_cb cb type_err)
      else match cb with Some _ => call_cb cb equal | None => ret tt end) p' in
   (p2, (evs ++ evs2)%list, r)).
Proof.
  intros Hc Hw Hn Hcmp. unfold restore_pv, bind, get_pv at 1. simpl.
  rewrite Hc, Hw, Hn, Hcmp. simpl.
  destruct eq, cb; simpl; unfold bind, get_pv, call_cb, emit, ret, throw; simpl;
    try destruct (accepts p' v); simpl; rewrite ?app_nil_r; reflexivity.
Qed.

(** C10: on a connected, writable PV, [restore_pv(None)] without a callback
    raises TypeError (the NoValue branch calls the callback unconditionally),
    while the AccessError and Equal branches call the callback only when one
    is given and otherwise return normally. *)
Theorem restore_pv_missing_callback ca fetch accepts :
  (forall p, connected p = true -> write_access p = true ->
     restore_pv ca fetch accepts VNone None p = (p, [], Raise TypeError)) /\
  (forall p v, connected p = false \/ write_access p = false ->
     restore_pv ca fetch accepts v None p = (p, [], Ret tt) /\
     (forall c, restore_pv ca fetch accepts v (Some c) p
                = (p, [Callback c access_err], Ret tt))) /\
  (forall p v p' evs, connected p = true -> write_access p = true ->
     is_none v = false ->
     compare_to_curr ca fetch v p = (p', evs, Ret true) ->
     restore_pv ca fetch accepts v None p = (p', evs, Ret tt) /\
     (forall c, restore_pv ca fetch accepts v (Some c) p
                = (p', (evs ++ [Callback c equal])%list, Ret tt))).
Proof.
  split; [| split].
  - intros p Hc Hw. unfold restore_pv, bind, get_pv; simpl.
    rewrite Hc, Hw. reflexivity.
  - intros p v [Hc | Hw]; unfold restore_pv, bind, get_pv; simpl.
    + rewrite Hc. split; reflexivity.
    + destruct (connected p); [rewrite Hw |]; split; reflexivity.
  - intros p v p' evs Hc Hw Hn Hcmp. split; [| intro c];
      rewrite (restore_pv_after_compare ca fetch accepts p v _ p' evs true Hc Hw Hn Hcmp);
      simpl; rewrite ?app_nil_r; reflexivity.
Qed.

Lemma restore_pv_missing_callback_witness :
  let p := mk_pv "PV" true true false (VScalar (SNum (Fin 1))) true false in
  (connected p = true /\ write_access p = true) /\
  restore_pv (fun _ => None) (fun _ => VNone) (fun _ _ => true) VNone None p
  = (p, [], Raise TypeError).
Proof.
  intro p. split; [split; reflexivity |].
  apply (proj1 (restore_pv_missing_callback (fun _ => None) (fun _ => VNone) (fun _ _ => true)));
    reflexivity.
Defined.

(** C4, failing input: the scheduler has cached a value but has not marked
    the entry initialized (its control-variable fetch timed out).  The first
    read of [value] still performs a blocking fetch although a value is
    cached, and when that fetch times out ([get] returns None) the cached
    value is overwritten by None and None is returned. *)
Lemma value_read_fetches_with_cached_value :
  let p := mk_pv "PV" true true false (VScalar (SNum (Fin 7))) false false in
  last_value p <> VNone /\
  get_value (fun _ => None) (fun _ => VScalar (SNum (Fin 8))) p
  = (mk_pv "PV" true true false (VScalar (SNum (Fin 8))) true false,
     [NetFetch], Ret (VScalar (SNum (Fin 8)))) /\
  get_value (fun _ => None) (fun _ => VNone) p
  = (mk_pv "PV" true true false VNone true false, [NetFetch], Ret VNone).
Proof. split; [discriminate | split; reflexivity]. Qed.

(** X: reading [value] of an initialized entry returns the cached
    value without any network operation.  Reading it while the entry is not
    initialized, whether or not a value is cached, marks the entry
    initialized, performs at most one blocking fetch (possibly preceded by a
    wait for a pending scheduler read), caches the result and returns it; the
    next read returns it without network access. *)
Theorem value_read_blocks_at_most_once ca fetch :
  (forall p, initialized p = true ->
     get_value ca fetch p = (p, [], Ret (last_value p))) /\
  (forall p, initialized p = false ->
     exists p' evs v,
       get_value ca fetch p = (p', evs, Ret v) /\
       initialized p' = true /\ last_value p' = v /\
       (evs = [] \/ evs = [NetFetch] \/ evs = [NetComplete] \/
        evs = [NetComplete; NetFetch]) /\
       get_value ca fetch p' = (p', [], Ret v)).
Proof.
  split.
  - intros p Hi. unfold get_value, bind, get_pv, ret. simpl. now rewrite Hi.
  - intros [name c w a lv i cp] Hi; simpl in Hi; subst i.
    unfold get_value, get_with_args, get_complete_wait, bind, get_pv, modify, emit, ret.
    simpl.
    destruct cp; simpl.
    + destruct c; simpl.
      * destruct (ca _) as [v |] eqn:E; simpl.
        -- destruct (is_none v); simpl; eexists _, _, _;
             (split; [reflexivity | split; [reflexivity | split; [reflexivity | split]]]);
             auto.
        -- eexists _, _, _;
             (split; [reflexivity | split; [reflexivity | split; [reflexivity | split]]]);
             auto.
      * eexists _, _, _;
          (split; [reflexivity | split; [reflexivity | split; [reflexivity | split]]]);
          auto.
    + eexists _, _, _;
        (split; [reflexivity | split; [reflexivity | split; [reflexivity | split]]]);
        auto.
Qed.

Lemma value_read_blocks_at_most_once_witness :
  let p := mk_pv "PV" true true false VNone true false in
  initialized p = true /\
  get_value (fun _ => None) (fun _ => VNone) p = (p, [], Ret VNone).
Proof.
  intro p. split; [reflexivity |].
  apply (proj1 (value_read_blocks_at_most_once (fun _ => None) (fun _ => VNone))).
  reflexivity.
Defined.

(** One step of the registry: the counter stays non-negative, the worker
    calls are those of the counter's transition, and [resume()] at 0 changes
    nothing. *)
Lemma bw_step_spec (b : bg_workers) (op : bw_op) :
  (0 <= count b)%Z ->
  let '(b', evs) := bw_step b op in
  (0 <= count b')%Z /\ workers b' = workers b /\
  evs = transition_calls (workers b) (count b) (count b') /\
  (op = OpResume -> count b = 0%Z -> b' = b).
Proof.
  intro H. destruct b as [ws c]; simpl in *.
  destruct op; unfold bw_step, bw_suspend, bw_resume, transition_calls; simpl.
  - repeat split; try lia; try discriminate.
    destruct (Z.eqb_spec c 0) as [E | E]; simpl.
    + subst. reflexivity.
    + destruct (Z.eqb_spec c 1); destruct (Z.eqb_spec (c + 1) 1); simpl; try lia;
        destruct (Z.eqb_spec (c + 1) 0); simpl; try lia; reflexivity.
  - destruct (Z.ltb_spec 0 c) as [L | L].
    + simpl. repeat split; try lia.
      destruct (Z.eqb_spec (c - 1) 0) as [E | E].
      * assert (c = 1%Z) by lia. subst. reflexivity.
      * destruct (Z.eqb_spec c 0); [lia |]. simpl.
        destruct (Z.eqb_spec c 1); [lia |]. reflexivity.
    + assert (c = 0%Z) by lia. subst. simpl. repeat split; reflexivity.
Qed.

(** C8: along every sequence of [suspend()] and [resume()] calls, starting
    from a non-negative counter, the workers' [suspend()] is called exactly at
    the counter's 0 -> 1 transitions and their [resume()] exactly at its
    1 -> 0 transitions; the counter never becomes negative, and [resume()] at
    0 leaves the registry unchanged. *)
Theorem background_workers_transitions (b : bg_workers) (ops : list bw_op) :
  (0 <= count b)%Z ->
  snd (bw_run b ops) = transitions_calls (workers b) (bw_counts b ops) /\
  Forall (fun c => 0 <= c)%Z (bw_counts b ops) /\
  (count b = 0%Z -> bw_step b OpResume = (b, [])).
Proof.
  revert b. induction ops as [| op ops IH]; intros b Hb.
  - simpl. repeat constructor; auto.
    intro E. unfold bw_step, bw_resume. rewrite E. reflexivity.
  - pose proof (bw_step_spec b op Hb) as Hs.
    destruct (bw_step b op) as [b1 e1] eqn:Estep.
    destruct Hs as (Hb1 & Hw & He & _).
    destruct (IH b1 Hb1) as (IHrun & IHpos & _).
    split; [| split].
    + simpl. rewrite Estep. simpl.
      destruct (bw_run b1 ops) as [b2 e2] eqn:Erun. simpl in IHrun |- *.
      destruct ops as [| op' ops'].
      * simpl in Erun. injection Erun as <- <-. simpl.
        rewrite He, app_nil_r. reflexivity.
      * simpl in IHrun |- *. rewrite IHrun, He, Hw. reflexivity.
    + simpl. rewrite Estep. simpl. constructor; assumption.
    + intro E. unfold bw_step, bw_resume. rewrite E. reflexivity.
Qed.

Lemma background_workers_transitions_witness :
  (0 <= count (mk_bg [1%nat; 2%nat] 0))%Z /\
  snd (bw_run (mk_bg [1; 2] 0) [OpSuspend; OpSuspend; OpResume; OpResume; OpResume])
  = [WSuspend 1; WSuspend 2; WResume 1; WResume 2].
Proof.
  split; [simpl; lia |].
  rewrite (proj1 (background_workers_transitions (mk_bg [1; 2] 0)
                    [OpSuspend; OpSuspend; OpResume; OpResume; OpResume]
                    ltac:(simpl; lia))).
  vm_compute. reflexivity.
Defined.

Lemma complete_all_nth cct (qs : list snapshot_pv) (i : nat) (q : snapshot_pv) :
  nth_error qs i = Some q ->
  nth_error (fst (complete_all cct qs)) i = Some (fst (get_complete cct q)) /\
  nth_error (snd (complete_all cct qs)) i = Some (snd (get_complete cct q)).
Proof.
  revert i. induction qs as [| q0 qs IH]; intros [| i] H; simpl in H; try discriminate.
  - injection H as <-. simpl.
    destruct (get_complete cct q0), (complete_all cct qs). split; reflexivity.
  - simpl. specialize (IH i H).
    destruct (get_complete cct q0), (complete_all cct qs). exact IH.
Qed.

Lemma init_and_start_fields ctrl p :
  connected (init_and_start ctrl p) = connected p /\
  pvname (init_and_start ctrl p) = pvname p /\
  last_value (init_and_start ctrl p) = last_value p.
Proof.
  unfold init_and_start, get_start.
  destruct (negb (initialized p) && connected p && ctrl p);
    simpl; destruct (connected p) eqn:E; simpl; rewrite ?E; auto.
Qed.

(** C9: in one update cycle, the entry at every position gets a new cached
    value only when its read completes; when the read times out (or fails)
    or the channel is disconnected, its cached value is unchanged and [None]
    is put at its position in the cycle's value list. *)
Theorem update_cycle_value_on_completion ctrl cct
  (ps : list snapshot_pv) (i : nat) (p : snapshot_pv) :
  nth_error ps i = Some p ->
  exists p' v,
    nth_error (fst (update_cycle ctrl cct ps)) i = Some p' /\
    nth_error (snd (update_cycle ctrl cct ps)) i = Some v /\
    match (if connected p then cct (pvname p) else None) with
    | Some x => v = x /\ last_value p' = x
    | None => v = VNone /\ last_value p' = last_value p
    end.
Proof.
  intro H. unfold update_cycle.
  assert (Hm : nth_error (map (init_and_start ctrl) ps) i = Some (init_and_start ctrl p))
    by (rewrite nth_error_map, H; reflexivity).
  destruct (complete_all_nth cct _ i _ Hm) as [H1 H2].
  exists (fst (get_complete cct (init_and_start ctrl p))),
         (snd (get_complete cct (init_and_start ctrl p))).
  split; [exact H1 | split; [exact H2 |]].
  destruct (init_and_start_fields ctrl p) as (Hc & Hn & Hl).
  unfold get_complete. rewrite Hc, Hn.
  destruct (connected p); simpl; [| auto].
  destruct (cct (pvname p)); simpl; auto.
Qed.

Lemma update_cycle_value_on_completion_witness :
  nth_error [mk_pv "PV" true true false (VScalar (SNum (Fin 3))) true false] 0
  = Some (mk_pv "PV" true true false (VScalar (SNum (Fin 3))) true false) /\
  exists p' v,
    nth_error (fst (update_cycle (fun _ => true) (fun _ => None)
                     [mk_pv "PV" true true false (VScalar (SNum (Fin 3))) true false])) 0
    = Some p' /\
    nth_error (snd (update_cycle (fun _ => true) (fun _ => None)
                     [mk_pv "PV" true true false (VScalar (SNum (Fin 3))) true false])) 0
    = Some v /\
    v = VNone /\ last_value p' = VScalar (SNum (Fin 3)).
Proof.
  split; [reflexivity |].
  exact (update_cycle_value_on_completion (fun _ => true) (fun _ => None)
           [mk_pv "PV" true true false (VScalar (SNum (Fin 3))) true false] 0
           (mk_pv "PV" true true false (VScalar (SNum (Fin 3))) true false) eq_refl).
Defined.


(** [_check_looping] finds every ancestor whose normalised path is the
    target's. *)
Lemma check_looping_from_found abspath normpath (target : string) (a : req_file) :
  forall self, In a (ancestors self) -> normpath (abspath (rf_path a)) = target ->
  exists msg, check_looping_from abspath normpath target self = Some msg /\
    (msg = MsgLoopRoot target \/ exists caller, msg = MsgLoopCalledFrom target caller).
Proof.
  fix IH 1. intros [path parent macros cm tr] Hin Ha.
  simpl in Hin |- *.
  destruct (String.eqb_spec (normpath (abspath path)) target) as [E | E].
  - destruct parent as [par |]; eexists; split; try reflexivity; eauto.
  - destruct Hin as [Heq | Hin]; [clear IH; subst a; simpl in Ha; contradiction |].
    destruct parent as [par |]; [| destruct Hin].
    exact (IH par Hin Ha).
Qed.



(** C6, counterexample: with the macro [A] defined as ["$(B)"] and an empty
    changeable-macro list, the line [$(A):x] leaves the token [$(B)] whose
    name is not allowed, yet it is accepted, because the token is one of the
    macro values. *)
Lemma macro_value_token_accepted :
  let self := root_req (fun s => s) "/r.req" [("A", "$(B)")] [] in
  In "$(B)" (findall_macros "$(B):x") /\ mem "B" (rf_c_macros self) = false /\
  read (fun s => s) (fun s => s) (fun _ b => b)
       (fun p => if String.eqb p "/r.req" then Some ["$(A):x"] else None) 2 self
  = Pvs ["$(B):x"].
Proof. split; [left; reflexivity | split; reflexivity]. Qed.

(** C6 (amended): for a data line (not empty, not starting with [#],
    [data{], [}] or [!]), the first comma-separated field after macro
    substitution is checked: the offending tokens are the [$(...)] tokens in
    it that are neither one of the file's macro values nor named in the
    file's changeable-macro list.  If there are any, reading stops with a
    parse error carrying the file's trace, the line number, the line and
    exactly these tokens; otherwise the substituted name, remaining tokens
    included, is appended to the output. *)
Theorem data_line_macro_validation abspath normpath join_dirname
  (sub_read : req_file -> read_result) (self : req_file) (n : nat) (raw : string)
  (rest pvs : list string) :
  let line := strip raw in
  let pvname := macros_substitution (hd "" (split_once "," (rstrip line))) (rf_macros self) in
  is_skipped_prefix line = false -> String.eqb (strip line) "" = false ->
  (forall tok, In tok (invalid_macros self pvname) <->
     In tok (findall_macros pvname) /\
     mem tok (dict_values (rf_macros self)) = false /\
     mem (macro_name tok) (rf_c_macros self) = false) /\
  (invalid_macros self pvname <> [] ->
     read_loop abspath normpath join_dirname sub_read self n (raw :: rest) pvs
     = Fail (ReqParseError (rf_trace self) (S n) line
               (MsgUndefinedMacros (invalid_macros self pvname)))) /\
  (invalid_macros self pvname = [] ->
     read_loop abspath normpath join_dirname sub_read self n (raw :: rest) pvs
     = read_loop abspath normpath join_dirname sub_read self (S n) rest
                 (pvs ++ [pvname])%list).
Proof.
  intros line pvname Hskip Hempty.
  assert (Hstep : read_loop abspath normpath join_dirname sub_read self n (raw :: rest) pvs
                  = match validate_macros_in_txt self pvname with
                    | Some m => Fail (ReqParseError (rf_trace self) (S n) line m)
                    | None => read_loop abspath normpath join_dirname sub_read self (S n) rest
                                        (pvs ++ [pvname])%list
                    end).
  { simpl. unfold process_line. fold line. rewrite Hskip, Hempty. simpl. fold pvname.
    destruct (validate_macros_in_txt self pvname); reflexivity. }
  split; [| split].
  - intro tok. unfold invalid_macros. rewrite filter_In, andb_true_iff, !negb_true_iff.
    tauto.
  - intro Hne. rewrite Hstep. unfold validate_macros_in_txt.
    destruct (invalid_macros self pvname); [contradiction | reflexivity].
  - intro He. rewrite Hstep. unfold validate_macros_in_txt. rewrite He. reflexivity.
Qed.

Lemma data_line_macro_validation_witness :
  (is_skipped_prefix (strip "$(X):y") = false /\ String.eqb (strip (strip "$(X):y")) "" = false) /\
  read_loop (fun s => s) (fun s => s) (fun _ b => b) (fun _ => Pvs [])
    (root_req (fun s => s) "/r.req" [] []) 0 ["$(X):y"] []
  = Fail (ReqParseError (TRoot "/r.req") 1 "$(X):y" (MsgUndefinedMacros ["$(X)"])).
Proof.
  split; [split; reflexivity |].
  apply (proj1 (proj2 (data_line_macro_validation (fun s => s) (fun s => s) (fun _ b => b)
           (fun _ => Pvs []) (root_req (fun s => s) "/r.req" [] []) 0 "$(X):y" [] []
           eq_refl eq_refl))).
  discriminate.
Defined.

(** C7, failing input: a save file with a metadata line, a good line and a
    line whose value is the valid JSON [[[1,2],[3]]].  The decoded list is
    ragged, [numpy.asarray] raises ValueError (NumPy 1.24 and later) outside
    the [try] that only catches JSONDecodeError, and the whole parse aborts:
    the value already parsed for [PV:A] is lost with it. *)
Theorem save_file_ragged_array_aborts (loads : string -> option json) :
  loads ("{}" ++ String (ascii_of_nat 10) "") = Some (JObj []) ->
  loads "1" = Some (JNum 1) ->
  loads "[[1,2],[3]]" = Some (JList [JList [JNum 1; JNum 2]; JList [JNum 3]]) ->
  parse_from_save_file loads
    [("#{}" ++ String (ascii_of_nat 10) "");
     ("PV:A,1" ++ String (ascii_of_nat 10) "");
     ("PV:B,[[1,2],[3]]" ++ String (ascii_of_nat 10) "")] false
  = Raise ValueError.
Proof.
  intros Hm H1 H2. cbn in Hm. unfold parse_from_save_file. cbn.
  rewrite Hm. vm_compute. rewrite H1. vm_compute. rewrite H2. reflexivity.
Qed.

Lemma save_file_ragged_array_aborts_witness :
  parse_from_save_file
    (fun s => if String.eqb s "1" then Some (JNum 1)
              else if String.eqb s "[[1,2],[3]]"
                   then Some (JList [JList [JNum 1; JNum 2]; JList [JNum 3]])
              else if String.eqb s ("{}" ++ String (ascii_of_nat 10) "")
                   then Some (JObj []) else None)
    [("#{}" ++ String (ascii_of_nat 10) "");
     ("PV:A,1" ++ String (ascii_of_nat 10) "");
     ("PV:B,[[1,2],[3]]" ++ String (ascii_of_nat 10) "")] false
  = Raise ValueError.
Proof.
  apply save_file_ragged_array_aborts; reflexivity.
Defined.

(** ** Further properties of the code *)

(** *** _BackgroundWorkers.register / unregister *)

Lemma existsb_eqb_In (x : nat) (l : list nat) :
  existsb (Nat.eqb x) l = true <-> In x l.
Proof.
  rewrite existsb_exists. split.
  - intros [y [Hy Heq]]. apply Nat.eqb_eq in Heq. subst. exact Hy.
  - intros H. exists x. split; [exact H | apply Nat.eqb_refl].
Qed.

Lemma list_index_None (x : nat) (l : list nat) :
  list_index x l = None <-> ~ In x l.
Proof.
  induction l as [|y l IH]; simpl.
  - split; auto.
  - destruct (Nat.eqb x y) eqn:E.
    + apply Nat.eqb_eq in E. subst. split; [discriminate | intros H; exfalso; auto].
    + apply Nat.eqb_neq in E. destruct (list_index x l); simpl.
      * split; [discriminate | intros H; exfalso].
        assert (Some n = None) by (apply IH; intros Hin; apply H; auto). discriminate.
      * split; [intros _ [Heq|Hin]; [congruence | apply IH in Hin; auto; reflexivity] | reflexivity].
Qed.

(** [list.index] then [del]: the first occurrence is removed. *)
Lemma list_index_del (x : nat) (l : list nat) (i : nat) :
  list_index x l = Some i ->
  exists l1 l2, l = (l1 ++ x :: l2)%list /\ ~ In x l1 /\ del_at i l = (l1 ++ l2)%list.
Proof.
  revert i. induction l as [|y l IH]; simpl; intros i H; [discriminate|].
  destruct (Nat.eqb x y) eqn:E.
  - apply Nat.eqb_eq in E. subst. injection H as <-.
    exists [], l. simpl. auto.
  - apply Nat.eqb_neq in E. destruct (list_index x l) as [j|] eqn:Hj; simpl in H; [|discriminate].
    injection H as <-. destruct (IH j eq_refl) as [l1 [l2 [-> [Hn Hd]]]].
    exists (y :: l1), l2. simpl. rewrite Hd. split; [reflexivity|]. split; [|reflexivity].
    intros [Heq|Hin]; [congruence | auto].
Qed.

Lemma apply_wevents_app (flags : nat -> bool) (e1 e2 : list wevent) :
  apply_wevents flags (e1 ++ e2) = apply_wevents (apply_wevents flags e1) e2.
Proof. unfold apply_wevents. apply fold_left_app. Qed.

Lemma apply_wevents_suspend (flags : nat -> bool) (ws : list nat) (w : nat) :
  apply_wevents flags (map WSuspend ws) w = if existsb (Nat.eqb w) ws then true else flags w.
Proof.
  revert flags. induction ws as [|x ws IH]; intros flags; simpl; [reflexivity|].
  unfold apply_wevents in *. simpl. rewrite IH. simpl.
  destruct (Nat.eqb w x); simpl; [destruct (existsb (Nat.eqb w) ws)|]; reflexivity.
Qed.

Lemma apply_wevents_resume (flags : nat -> bool) (ws : list nat) (w : nat) :
  apply_wevents flags (map WResume ws) w = if existsb (Nat.eqb w) ws then false else flags w.
Proof.
  revert flags. induction ws as [|x ws IH]; intros flags; simpl; [reflexivity|].
  unfold apply_wevents in *. simpl. rewrite IH. simpl.
  destruct (Nat.eqb w x); simpl; [destruct (existsb (Nat.eqb w) ws)|]; reflexivity.
Qed.

Lemma bw_step_consistent (b : bg_workers) (op : bw_op) (flags : nat -> bool) :
  (0 <= count b)%Z -> flags_consistent b flags ->
  (0 <= count (fst (bw_step b op)))%Z /\
  flags_consistent (fst (bw_step b op)) (apply_wevents flags (snd (bw_step b op))).
Proof.
  intros Hc Hf. destruct op; simpl.
  - unfold bw_suspend. destruct (Z.eqb (count b) 0) eqn:E; simpl; split; try lia.
    + intros w Hw. simpl in Hw. rewrite apply_wevents_suspend.
      apply existsb_eqb_In in Hw. rewrite Hw. apply Z.eqb_eq in E. rewrite E. reflexivity.
    + intros w Hw. simpl in Hw. unfold apply_wevents. simpl. rewrite (Hf w Hw), E.
      apply Z.eqb_neq in E. destruct (Z.eqb_spec (count b + 1) 0); [lia | reflexivity].
  - unfold bw_resume. destruct (Z.ltb 0 (count b)) eqn:L; simpl.
    + apply Z.ltb_lt in L. destruct (Z.eqb (count b - 1) 0) eqn:E; simpl; split; try lia.
      * intros w Hw. simpl in Hw. rewrite apply_wevents_resume.
        apply existsb_eqb_In in Hw. rewrite Hw. apply Z.eqb_eq in E.
        symmetry. apply negb_false_iff. apply Z.eqb_eq. simpl. lia.
      * intros w Hw. simpl in Hw. unfold apply_wevents. simpl. rewrite (Hf w Hw).
        apply Z.eqb_neq in E. destruct (Z.eqb_spec (count b) 0); [lia|].
        symmetry. apply negb_true_iff. apply Z.eqb_neq. simpl. lia.
    + split; [exact Hc | exact Hf].
Qed.

(** *** Connection callbacks *)

Lemma cb_set_fresh (k v : nat) (d : cb_dict) :
  ~ In k (map fst d) -> cb_set k v d = (d ++ [(k, v)])%list.
Proof.
  induction d as [|[k' v'] d IH]; simpl; intros H; [reflexivity|].
  destruct (Nat.eqb_spec k k'); [exfalso; auto|]. rewrite IH; auto.
Qed.

Lemma list_max_lt (l : list nat) (k : nat) : In k l -> k < 1 + list_max l.
Proof.
  intros H. pose proof (proj1 (list_max_le l (list_max l)) (Nat.le_refl _)) as HF.
  rewrite Forall_forall in HF. specialize (HF k H). lia.
Qed.

Lemma add_conn_callback_fresh_idx (cb : nat) (d : cb_dict) :
  forall k, In k (map fst d) -> k < snd (add_conn_callback cb d).
Proof.
  intros k Hk. unfold add_conn_callback. destruct d as [|kv d]; [contradiction|].
  cbn [snd]. apply list_max_lt. exact Hk.
Qed.

Lemma add_conn_callback_app (cb : nat) (d : cb_dict) :
  fst (add_conn_callback cb d) = (d ++ [(snd (add_conn_callback cb d), cb)])%list.
Proof.
  unfold add_conn_callback at 1. apply cb_set_fresh. intros Hin.
  pose proof (add_conn_callback_fresh_idx cb d _ Hin). unfold add_conn_callback in H.
  simpl in H. lia.
Qed.

Lemma cb_lookup_app (k : nat) (d e : cb_dict) :
  cb_lookup k (d ++ e)%list = match cb_lookup k d with Some v => Some v | None => cb_lookup k e end.
Proof.
  induction d as [|[k' v'] d IH]; simpl; [reflexivity|].
  destruct (Nat.eqb k k'); [reflexivity | exact IH].
Qed.

Lemma cb_lookup_notin (k : nat) (d : cb_dict) : ~ In k (map fst d) -> cb_lookup k d = None.
Proof.
  induction d as [|[k' v'] d IH]; simpl; intros H; [reflexivity|].
  destruct (Nat.eqb_spec k k'); [exfalso; auto | apply IH; auto].
Qed.

Lemma cb_pop_app_fresh (k v : nat) (d : cb_dict) :
  ~ In k (map fst d) -> cb_pop k (d ++ [(k, v)])%list = d.
Proof.
  induction d as [|[k' v'] d IH]; simpl; intros H.
  - rewrite Nat.eqb_refl. reflexivity.
  - destruct (Nat.eqb_spec k k'); [exfalso; auto | rewrite IH; auto].
Qed.

Lemma list_max_seq (n : nat) : list_max (seq 0 (S n)) = n.
Proof.
  induction n as [|n IH]; [reflexivity|].
  rewrite seq_S, list_max_app, IH. simpl. lia.
Qed.

Lemma add_conn_callback_seq (cb : nat) (d : cb_dict) :
  map fst d = seq 0 (List.length d) -> snd (add_conn_callback cb d) = List.length d.
Proof.
  intros H. unfold add_conn_callback. destruct d as [|kv d]; [reflexivity|].
  rewrite H. cbn [List.length snd]. rewrite list_max_seq. reflexivity.
Qed.

Lemma list_index_app_last (w : nat) (ws : list nat) :
  ~ In w ws -> list_index w (ws ++ [w])%list = Some (List.length ws).
Proof.
  induction ws as [|y ws IH]; simpl; intros H.
  - rewrite Nat.eqb_refl. reflexivity.
  - destruct (Nat.eqb_spec w y); [exfalso; auto|]. rewrite IH; auto.
Qed.

Lemma del_at_app_last (ws : list nat) (x : nat) :
  del_at (List.length ws) (ws ++ [x])%list = ws.
Proof. induction ws as [|y ws IH]; simpl; [reflexivity | rewrite IH; reflexivity]. Qed.

Lemma NoDup_app_last (ws : list nat) (w : nat) :
  NoDup ws -> ~ In w ws -> NoDup (ws ++ [w])%list.
Proof.
  intros H Hn. apply NoDup_app; auto.
  - constructor; [intros []|constructor].
  - intros x Hx [<-|[]]. auto.
Qed.

(** X: registering keeps the workers distinct, and unregistering removes the
    worker and nothing else. *)
Theorem bw_register_unregister_distinct (w : nat) (b : bg_workers) :
  NoDup (workers b) ->
  (NoDup (workers (bw_register w b)) /\ In w (workers (bw_register w b)) /\
   count (bw_register w b) = count b /\
   (forall x, In x (workers (bw_register w b)) <-> x = w \/ In x (workers b))) /\
  (forall b', bw_unregister w b = Ret b' ->
   NoDup (workers b') /\ ~ In w (workers b') /\ count b' = count b /\
   (forall x, x <> w -> (In x (workers b') <-> In x (workers b)))).
Proof.
  intros Hnd. split.
  - unfold bw_register. destruct (existsb (Nat.eqb w) (workers b)) eqn:E.
    + apply existsb_eqb_In in E. split; [exact Hnd|]. split; [exact E|].
      split; [reflexivity|]. intros x. split.
      * intros Hx. right. exact Hx.
      * intros [->|Hx]; auto.
    + assert (Hn : ~ In w (workers b)) by (rewrite <- existsb_eqb_In, E; discriminate).
      cbn [workers count]. split; [|split; [|split]].
      * apply NoDup_app_last; auto.
      * apply in_or_app. right. left. reflexivity.
      * reflexivity.
      * intros x. split.
        -- intros Hx. apply in_app_or in Hx. destruct Hx as [Hx|[<-|[]]]; auto.
        -- intros [->|Hx]; apply in_or_app; [right; left; reflexivity | left; exact Hx].
  - intros b' Hu. unfold bw_unregister in Hu.
    destruct (list_index w (workers b)) as [i|] eqn:Hi; [|discriminate].
    injection Hu as <-. cbn [workers count].
    destruct (list_index_del _ _ _ Hi) as [l1 [l2 [Hl [Hn1 Hd]]]]. rewrite Hd.
    rewrite Hl in Hnd. apply NoDup_remove in Hnd. destruct Hnd as [Hnd Hn2].
    split; [exact Hnd|]. split; [exact Hn2|]. split; [reflexivity|].
    intros x Hxw. split.
    + intros Hx. rewrite Hl. apply in_app_or in Hx. apply in_or_app.
      destruct Hx; [left | right; right]; auto.
    + intros Hx. rewrite Hl in Hx. apply in_app_or in Hx. apply in_or_app.
      destruct Hx as [Hx|[Heq|Hx]]; [left; auto | congruence | right; auto].
Qed.

Lemma bw_register_unregister_distinct_witness :
  NoDup (workers (mk_bg [1%nat; 2%nat] 0%Z)) /\
  NoDup (workers (bw_register 3 (mk_bg [1%nat; 2%nat] 0%Z))).
Proof.
  assert (H : NoDup (workers (mk_bg [1%nat; 2%nat] 0%Z))).
  { apply NoDup_cons; [simpl; lia|]. apply NoDup_cons; [simpl; lia|]. apply NoDup_nil. }
  split; [exact H|].
  exact (proj1 (proj1 (bw_register_unregister_distinct 3 (mk_bg [1%nat; 2%nat] 0%Z) H))).
Defined.

(** X: unregistering a worker that is not registered raises ValueError, and
    registering a new worker then unregistering it gives back the registry. *)
Theorem bw_unregister_absent_and_round_trip (w : nat) (b : bg_workers) :
  ~ In w (workers b) ->
  bw_unregister w b = Raise ValueError /\ bw_unregister w (bw_register w b) = Ret b.
Proof.
  intros Hn. split.
  - unfold bw_unregister. apply list_index_None in Hn. rewrite Hn. reflexivity.
  - unfold bw_register.
    assert (E : existsb (Nat.eqb w) (workers b) = false).
    { destruct (existsb (Nat.eqb w) (workers b)) eqn:E; [|reflexivity].
      apply existsb_eqb_In in E. contradiction. }
    rewrite E. unfold bw_unregister. cbn [workers count].
    rewrite list_index_app_last by exact Hn. rewrite del_at_app_last.
    destruct b. reflexivity.
Qed.

Lemma bw_unregister_absent_and_round_trip_witness :
  ~ In 3 (workers (mk_bg [1%nat; 2%nat] 1%Z)) /\
  bw_unregister 3 (mk_bg [1%nat; 2%nat] 1%Z) = Raise ValueError.
Proof.
  assert (H : ~ In 3 (workers (mk_bg [1%nat; 2%nat] 1%Z))) by (simpl; lia).
  split; [exact H|].
  exact (proj1 (bw_unregister_absent_and_round_trip 3 (mk_bg [1%nat; 2%nat] 1%Z) H)).
Defined.

(** X: along any sequence of [suspend] and [resume] calls, the [_suspend] flag
    of every registered PvUpdater is set exactly when the counter is
    positive, provided this held at the start. *)
Theorem bw_run_flags_follow_count (b : bg_workers) (ops : list bw_op) (flags : nat -> bool) :
  (0 <= count b)%Z -> flags_consistent b flags ->
  (0 <= count (fst (bw_run b ops)))%Z /\
  flags_consistent (fst (bw_run b ops)) (apply_wevents flags (snd (bw_run b ops))).
Proof.
  revert b flags. induction ops as [|op ops IH]; intros b flags Hc Hf; [simpl; auto|].
  simpl. destruct (bw_step b op) as [b1 e1] eqn:Hs.
  pose proof (bw_step_consistent b op flags Hc Hf) as [Hc1 Hf1]. rewrite Hs in Hc1, Hf1.
  simpl in Hc1, Hf1.
  destruct (bw_run b1 ops) as [b2 e2] eqn:Hr.
  specialize (IH b1 (apply_wevents flags e1) Hc1 Hf1). rewrite Hr in IH. simpl in IH |- *.
  rewrite apply_wevents_app. exact IH.
Qed.

Lemma bw_run_flags_follow_count_witness :
  (0 <= count (mk_bg [1%nat; 2%nat] 0%Z))%Z /\
  flags_consistent (fst (bw_run (mk_bg [1%nat; 2%nat] 0%Z) [OpSuspend; OpSuspend; OpResume]))
    (apply_wevents (fun _ => false)
       (snd (bw_run (mk_bg [1%nat; 2%nat] 0%Z) [OpSuspend; OpSuspend; OpResume]))).
Proof.
  assert (Hc : (0 <= count (mk_bg [1%nat; 2%nat] 0%Z))%Z) by (simpl; lia).
  split; [exact Hc|].
  apply (bw_run_flags_follow_count (mk_bg [1%nat; 2%nat] 0%Z) [OpSuspend; OpSuspend; OpResume]
           (fun _ => false) Hc).
  intros w _. reflexivity.
Defined.

(** X: [register] does not suspend the new worker: registering keeps the
    flags in line with the counter only if the worker was already registered
    or its flag already matches (it runs on while the others are suspended);
    [unregister] always keeps them in line. *)
Theorem bw_register_flags (w : nat) (b : bg_workers) (flags : nat -> bool) :
  flags_consistent b flags ->
  (flags_consistent (bw_register w b) flags <->
   In w (workers b) \/ flags w = negb (Z.eqb (count b) 0)) /\
  (forall b', bw_unregister w b = Ret b' -> flags_consistent b' flags).
Proof.
  intros Hf. split.
  - unfold bw_register. destruct (existsb (Nat.eqb w) (workers b)) eqn:E.
    + apply existsb_eqb_In in E. split; [intros _; left; exact E | intros _; exact Hf].
    + split.
      * intros H. right. apply H. cbn [workers]. apply in_or_app. right. left. reflexivity.
      * intros [Hin|Hw].
        -- apply existsb_eqb_In in Hin. congruence.
        -- intros x Hx. cbn [workers count] in *. apply in_app_or in Hx.
           destruct Hx as [Hx|[<-|[]]]; [apply Hf; exact Hx | exact Hw].
  - intros b' Hu. unfold bw_unregister in Hu.
    destruct (list_index w (workers b)) as [i|] eqn:Hi; [|discriminate].
    injection Hu as <-. intros x Hx. cbn [workers count] in *.
    destruct (list_index_del _ _ _ Hi) as [l1 [l2 [Hl [_ Hd]]]]. rewrite Hd in Hx.
    apply Hf. rewrite Hl. apply in_app_or in Hx. apply in_or_app.
    destruct Hx; [left | right; right]; auto.
Qed.

Lemma bw_register_flags_witness :
  flags_consistent (mk_bg [1%nat] 1%Z) (fun w => Nat.eqb w 1) /\
  ~ flags_consistent (bw_register 2 (mk_bg [1%nat] 1%Z)) (fun w => Nat.eqb w 1).
Proof.
  assert (Hf : flags_consistent (mk_bg [1%nat] 1%Z) (fun w => Nat.eqb w 1)).
  { intros w [<-|[]]. reflexivity. }
  split; [exact Hf|]. intros H.
  apply (proj1 (bw_register_flags 2 (mk_bg [1%nat] 1%Z) (fun w => Nat.eqb w 1) Hf)) in H.
  simpl in H. destruct H as [[H|[]]|H]; discriminate.
Defined.

(** X: [add_conn_callback] returns an index above every index in use, stores
    the callback under it and changes no other entry; the callback is called
    last on a connection change; removing the returned index gives back the
    dict. *)
Theorem add_conn_callback_spec (cb : nat) (d : cb_dict) (element_count : nat)
  (conn : bool) (p : snapshot_pv) :
  let (d', idx) := add_conn_callback cb d in
  (forall k, In k (map fst d) -> k < idx) /\
  cb_lookup idx d' = Some cb /\
  (forall k, k <> idx -> cb_lookup k d' = cb_lookup k d) /\
  snd (internal_cnct_callback element_count conn d' p) =
    (snd (internal_cnct_callback element_count conn d p) ++ [(cb, conn)])%list /\
  remove_conn_callback idx d' = d.
Proof.
  pose proof (add_conn_callback_fresh_idx cb d) as Hfr.
  pose proof (add_conn_callback_app cb d) as Happ.
  destruct (add_conn_callback cb d) as [d' idx]. simpl in Hfr, Happ. subst d'.
  assert (Hn : ~ In idx (map fst d)) by (intros Hin; specialize (Hfr _ Hin); lia).
  repeat split.
  - exact Hfr.
  - rewrite cb_lookup_app, cb_lookup_notin by exact Hn. simpl. rewrite Nat.eqb_refl. reflexivity.
  - intros k Hk. rewrite cb_lookup_app. destruct (cb_lookup k d); [reflexivity|].
    simpl. apply Nat.eqb_neq in Hk. rewrite Hk. reflexivity.
  - unfold internal_cnct_callback. simpl. rewrite !map_app. reflexivity.
  - unfold remove_conn_callback. rewrite map_app. simpl.
    rewrite existsb_app. simpl. rewrite Nat.eqb_refl, orb_true_r.
    apply cb_pop_app_fresh. exact Hn.
Qed.

Lemma add_conn_callbacks_fold (cbs : list nat) (d : cb_dict) :
  map fst d = seq 0 (List.length d) ->
  let d' := fold_left (fun acc cb => fst (add_conn_callback cb acc)) cbs d in
  map fst d' = seq 0 (List.length d + List.length cbs) /\ map snd d' = (map snd d ++ cbs)%list.
Proof.
  revert d. induction cbs as [|cb cbs IH]; intros d Hd; cbn [fold_left List.length].
  - rewrite Nat.add_0_r, app_nil_r. auto.
  - rewrite add_conn_callback_app, add_conn_callback_seq by exact Hd.
    destruct (IH (d ++ [(List.length d, cb)])%list) as [H1 H2].
    + rewrite map_app, length_app, Hd. simpl. rewrite Nat.add_1_r, seq_S. reflexivity.
    + rewrite H1, H2, length_app. simpl. rewrite map_app, <- app_assoc.
      split; [f_equal; lia | reflexivity].
Qed.

(** X: callbacks added one after the other to an empty dict get the indices
    0, 1, 2, ...; on a connection change [is_array] is set from the element
    count and the callbacks are called in the order they were added. *)
Theorem add_conn_callbacks_from_empty (cbs : list nat) (element_count : nat)
  (conn : bool) (p : snapshot_pv) :
  let d := fold_left (fun acc cb => fst (add_conn_callback cb acc)) cbs [] in
  map fst d = seq 0 (List.length cbs) /\
  map snd d = cbs /\
  snd (internal_cnct_callback element_count conn d p) = map (fun cb => (cb, conn)) cbs /\
  is_array (fst (internal_cnct_callback element_count conn d p)) = Nat.ltb 1 element_count.
Proof.
  destruct (add_conn_callbacks_fold cbs [] eq_refl) as [H1 H2]. simpl in H1, H2.
  cbn zeta. repeat split.
  - exact H1.
  - exact H2.
  - unfold internal_cnct_callback. simpl. rewrite H2. reflexivity.
Qed.

(** *** SnapshotPv.save_pv *)

Lemma no_cb_events_app (e1 e2 : list event) :
  no_cb_events (e1 ++ e2) = no_cb_events e1 && no_cb_events e2.
Proof. unfold no_cb_events. apply forallb_app. Qed.

Lemma get_with_args_ret ca fetch p :
  exists p' evs v, get_with_args ca fetch p = (p', evs, Ret v) /\ no_cb_events evs = true.
Proof.
  unfold get_with_args, get_complete_wait, bind, get_pv, modify, emit, ret. simpl.
  destruct (completer_pending p); simpl.
  - destruct (connected p); simpl.
    + destruct (ca p) as [v|]; simpl.
      * destruct (is_none v); simpl; eauto.
      * eauto.
    + eauto.
  - eauto.
Qed.

(** X: [save_pv] never writes and never raises.  Without a connection or
    read access it returns [(None, access_err)] without touching the network;
    otherwise the status is [no_value] exactly when the returned value is
    [None], and [ok] otherwise. *)
Theorem save_pv_status ca get read_access p :
  match save_pv ca get read_access p with
  | (p', evs, r) =>
      if connected p && read_access p then
        no_cb_events evs = true /\
        exists s, (r = Ret (s, no_value) /\ saved_is_none s = true) \/
                  (r = Ret (s, ok) /\ saved_is_none s = false)
      else p' = p /\ evs = [] /\ r = Ret (SavedValue VNone, access_err)
  end.
Proof.
  unfold save_pv. cbn [bind get_pv].
  destruct (connected p); cbn [andb ret]; [|auto].
  destruct (read_access p); cbn [andb ret]; [|auto].
  destruct (get_with_args_ret ca get p) as (p1 & e1 & v & Hg & He). unfold bind. rewrite Hg.
  match goal with |- context [saved_is_none ?s] => destruct (saved_is_none s) eqn:Hs end;
    unfold ret; simpl; rewrite no_cb_events_app, He; simpl;
    (split; [reflexivity|]); eexists; [left | right]; split; eauto.
Qed.

(** X: for an array PV whose value is read directly, [save_pv] turns an
    empty array into [(None, no_value)] and a scalar [x] into the array
    [[x]]; a read that returns [None] is wrapped into [numpy.asarray([None])]
    and reported [ok], not [no_value]. *)
Theorem save_pv_array_values ca get read_access p :
  connected p = true -> read_access p = true -> is_array p = true ->
  completer_pending p = false ->
  (get p = VNone -> snd (save_pv ca get read_access p) = Ret (SavedNoneArray, ok)) /\
  (forall x, get p = VScalar x ->
     snd (save_pv ca get read_access p) = Ret (SavedValue (VArray [x]), ok)) /\
  (np_size (get p) = 0 ->
     snd (save_pv ca get read_access p) = Ret (SavedValue VNone, no_value)).
Proof.
  intros Hc Hr Ha Hp.
  unfold save_pv, get_with_args, bind, get_pv, emit, ret. simpl.
  rewrite Hc, Hr, Hp. simpl. rewrite Ha.
  split; [|split].
  - intros H. rewrite H. reflexivity.
  - intros x H. rewrite H. reflexivity.
  - intros H. rewrite H. reflexivity.
Qed.

Lemma save_pv_array_values_witness :
  let p := mk_pv "WF" true true true VNone false false in
  (connected p = true /\ true = true /\ is_array p = true /\ completer_pending p = false) /\
  snd (save_pv (fun _ => None) (fun _ => VNone) (fun _ => true) p) = Ret (SavedNoneArray, ok).
Proof.
  intro p. split; [repeat split|].
  apply (proj1 (save_pv_array_values (fun _ => None) (fun _ => VNone) (fun _ => true) p
                  eq_refl eq_refl eq_refl eq_refl)).
  reflexivity.
Defined.

(** *** SnapshotPv.compare *)

Lemma combine_swap (xs ys : list scalar) :
  combine ys xs = map swap_pair (combine xs ys).
Proof.
  revert ys. induction xs as [|x xs IH]; intros ys.
  - destruct ys; reflexivity.
  - destruct ys as [|y ys]; [reflexivity|]. simpl. rewrite IH. reflexivity.
Qed.

Lemma broadcast_pairs_swap (xs ys : list scalar) :
  broadcast_pairs ys xs = option_map (map swap_pair) (broadcast_pairs xs ys).
Proof.
  destruct xs as [|x1 [|x2 xs]], ys as [|y1 [|y2 ys]]; cbn [broadcast_pairs option_map];
    try reflexivity; rewrite ?map_map; try reflexivity.
  - cbn [List.length Nat.eqb]. rewrite Nat.eqb_sym.
    destruct (Nat.eqb _ _); simpl; [rewrite combine_swap; reflexivity | reflexivity].
Qed.

Lemma num_eq_sym (a b : num) : num_eq b a = num_eq a b.
Proof. destruct a, b; simpl; auto. apply Qeq_bool_comm. Qed.

Lemma scalar_isclose_swap (t : Q) (p : scalar * scalar) :
  scalar_isclose t (swap_pair p) = scalar_isclose t p.
Proof.
  destruct p as [[a|s] [b|s']]; cbn [swap_pair fst snd scalar_isclose]; try reflexivity.
  apply num_isclose_sym.
Qed.

Lemma forallb_map_swap (t : Q) (ps : list (scalar * scalar)) :
  forallb (scalar_isclose t) (map swap_pair ps) = forallb (scalar_isclose t) ps.
Proof.
  induction ps as [|p ps IH]; cbn [map forallb]; [reflexivity|].
  rewrite scalar_isclose_swap, IH. reflexivity.
Qed.

Lemma allclose_sym (v1 v2 : value) (t : Q) : allclose v2 v1 t = allclose v1 v2 t.
Proof.
  unfold allclose. destruct (string_typed v1), (string_typed v2); try reflexivity.
  rewrite broadcast_pairs_swap. destruct (broadcast_pairs (elems v1) (elems v2)); simpl;
    [rewrite forallb_map_swap|]; reflexivity.
Qed.

Lemma scalar_eq_sym (x y : scalar) : scalar_eq y x = scalar_eq x y.
Proof. destruct x, y; simpl; try reflexivity; [apply num_eq_sym | apply String.eqb_sym]. Qed.

Lemma forall2b_scalar_eq_sym (xs ys : list scalar) :
  forall2b scalar_eq ys xs = forall2b scalar_eq xs ys.
Proof.
  revert ys. induction xs as [|x xs IH]; intros [|y ys]; simpl; try reflexivity.
  rewrite scalar_eq_sym, IH. reflexivity.
Qed.

Lemma array_equal_sym (v1 v2 : value) : array_equal v2 v1 = array_equal v1 v2.
Proof.
  unfold array_equal. rewrite forall2b_scalar_eq_sym.
  destruct (list_eq_dec Nat.eq_dec (shape v2) (shape v1)),
           (list_eq_dec Nat.eq_dec (shape v1) (shape v2)); congruence.
Qed.

(** X: [compare] is symmetric: exchanging the two values changes neither the
    answer nor the exception. *)
Theorem compare_sym (v1 v2 : value) (is_array : bool) (t : Q) :
  compare v2 v1 is_array t = compare v1 v2 is_array t.
Proof.
  unfold compare. rewrite allclose_sym, array_equal_sym, orb_comm, andb_comm. reflexivity.
Qed.

Lemma num_isclose_mono (t t' : Q) (a b : num) :
  (t <= t')%Q -> num_isclose t a b = true -> num_isclose t' a b = true.
Proof.
  intros Htt H. destruct a as [p| | |], b as [q| | |];
    try (rewrite num_isclose_fin in *; apply andb_true_iff in H; destruct H as [H1 H2];
         apply andb_true_iff; split; [exact H1|];
         apply Qle_bool_iff; apply Qle_bool_iff in H2; eapply Qle_trans; eauto);
    exact H.
Qed.

Lemma forallb_isclose_mono (t t' : Q) (ps : list (scalar * scalar)) :
  (t <= t')%Q -> forallb (scalar_isclose t) ps = true -> forallb (scalar_isclose t') ps = true.
Proof.
  intros Htt. induction ps as [|[[a|s] [b|s']] ps IH]; simpl; auto;
    intros H; apply andb_true_iff in H; destruct H as [H1 H2]; try discriminate.
  rewrite (num_isclose_mono t t' a b Htt H1). simpl. auto.
Qed.

(** X: the tolerance only matters through the numeric test: a pair of values
    equal within [t] is equal within every larger tolerance, and whether
    [compare] raises, and which exception, does not depend on the
    tolerance. *)
Theorem compare_tolerance_monotone (v1 v2 : value) (is_array : bool) (t t' : Q) :
  ((t <= t')%Q ->
   compare v1 v2 is_array t = Ret true -> compare v1 v2 is_array t' = Ret true) /\
  (forall e, compare v1 v2 is_array t = Raise e <-> compare v1 v2 is_array t' = Raise e).
Proof.
  unfold compare.
  destruct (is_none _ || is_none _); [split; [auto | intros e; split; intros H; discriminate]|].
  unfold allclose.
  destruct (string_typed _);
    [split; [auto | intros e; split; intros H; destruct (array_equal _ _); discriminate]|].
  destruct (string_typed _);
    [split; [auto | intros e; split; intros H; destruct (array_equal _ _); discriminate]|].
  destruct (broadcast_pairs _ _) as [ps|]; [|split; [auto | intros e; reflexivity]].
  split; [|intros e; split; intros H; discriminate].
  intros Htt H. injection H as H. rewrite (forallb_isclose_mono t t' ps Htt H). reflexivity.
Qed.

Lemma compare_tolerance_monotone_witness :
  (0 <= 1)%Q /\
  (compare (VScalar (SNum (Fin 1))) (VScalar (SNum (Fin 1))) false 0 = Ret true ->
   compare (VScalar (SNum (Fin 1))) (VScalar (SNum (Fin 1))) false 1 = Ret true).
Proof.
  assert (H : (0 <= 1)%Q) by (unfold Qle; simpl; lia).
  split; [exact H|].
  exact (proj1 (compare_tolerance_monotone (VScalar (SNum (Fin 1))) (VScalar (SNum (Fin 1)))
                  false 0 1) H).
Defined.

Lemma nan_free_normalize (v : value) : nan_free v = true -> nan_free (normalize v) = true.
Proof.
  unfold normalize. destruct v; simpl; intros H;
    repeat match goal with |- context [if ?c then _ else _] => destruct c end;
    simpl; auto.
Qed.

Lemma broadcast_pairs_diag (xs : list scalar) :
  broadcast_pairs xs xs = Some (map (fun x => (x, x)) xs).
Proof.
  destruct xs as [|x1 [|x2 xs]]; cbn [broadcast_pairs]; try reflexivity.
  rewrite Nat.eqb_refl. f_equal. simpl. f_equal. f_equal.
  induction xs as [|x xs IH]; simpl; [reflexivity | rewrite IH; reflexivity].
Qed.

Lemma scalar_ok_refl (t : Q) (x : scalar) :
  (0 <= t)%Q -> match x with SNum NaN => false | _ => true end = true ->
  is_str_scalar x = false -> scalar_isclose t (x, x) = true.
Proof.
  intros Ht Hx Hs. destruct x as [[q| | |]|s]; cbn [scalar_isclose is_str_scalar] in *;
    try discriminate; auto.
  apply num_isclose_refl. exact Ht.
Qed.

Lemma forall2b_scalar_eq_refl (xs : list scalar) :
  forallb (fun x => match x with SNum NaN => false | _ => true end) xs = true ->
  forall2b scalar_eq xs xs = true.
Proof.
  induction xs as [|[[q| | |]|s] xs IH]; simpl; intros H; try discriminate; auto;
    apply andb_true_iff; split; auto.
  - apply Qeq_bool_refl.
  - apply String.eqb_refl.
Qed.

(** X: a value without NaN compares equal to itself under any non-negative
    tolerance, whatever [is_array] says. *)
Theorem compare_refl (v : value) (is_array : bool) (t : Q) :
  (0 <= t)%Q -> nan_free v = true -> compare v v is_array t = Ret true.
Proof.
  intros Ht Hv. unfold compare.
  set (w := if is_array then normalize v else v).
  assert (Hw : nan_free w = true) by (unfold w; destruct is_array; auto using nan_free_normalize).
  clearbody w. destruct (is_none w); [reflexivity|]. simpl.
  unfold allclose. destruct (string_typed w) eqn:Hs.
  - unfold array_equal. destruct (list_eq_dec Nat.eq_dec (shape w) (shape w)); [|congruence].
    simpl. rewrite forall2b_scalar_eq_refl; [reflexivity | exact Hw].
  - rewrite broadcast_pairs_diag. f_equal.
    unfold nan_free, string_typed in *. induction (elems w) as [|x xs IH]; [reflexivity|].
    cbn [forallb existsb map] in Hw, Hs |- *. apply andb_true_iff in Hw. destruct Hw as [Hx Hxs].
    apply orb_false_iff in Hs. destruct Hs as [Hsx Hss].
    rewrite scalar_ok_refl by assumption. cbn [andb]. apply IH; assumption.
Qed.

Lemma compare_refl_witness :
  (0 <= 0)%Q /\ nan_free (VArray [SNum PInf; SNum (Fin 2)]) = true /\
  compare (VArray [SNum PInf; SNum (Fin 2)]) (VArray [SNum PInf; SNum (Fin 2)]) true 0 = Ret true.
Proof.
  assert (H : (0 <= 0)%Q) by apply Qle_refl.
  split; [exact H|]. split; [reflexivity|].
  apply compare_refl; [exact H | reflexivity].
Defined.

(** *** SnapshotPv.restore_pv *)

Lemma compare_cases (v1 v2 : value) (a : bool) (t : Q) :
  compare v1 v2 a t = Ret true \/ compare v1 v2 a t = Ret false \/
  compare v1 v2 a t = Raise ValueError.
Proof.
  unfold compare.
  destruct (is_none _ || is_none _); [destruct (_ && _); auto|].
  destruct (allclose _ _ _) as [[|]|[|]]; auto.
  destruct (array_equal _ _); auto.
Qed.

Lemma no_cb_events_In (evs : list event) (e : event) :
  no_cb_events evs = true -> In e evs -> is_cb_event e = false.
Proof.
  unfold no_cb_events. rewrite forallb_forall. intros H Hin.
  apply negb_true_iff. apply H. exact Hin.
Qed.

Lemma no_cb_events_filter (evs : list event) :
  no_cb_events evs = true -> filter is_cb_event evs = [] /\ filter is_put evs = [].
Proof.
  induction evs as [|e evs IH]; simpl; [auto|].
  intros H. apply andb_true_iff in H. destruct H as [He H].
  destruct e; simpl in *; try discriminate; auto.
Qed.

Lemma get_value_ret ca fetch p :
  exists p' evs v, get_value ca fetch p = (p', evs, Ret v) /\ no_cb_events evs = true.
Proof.
  unfold get_value, bind, get_pv, modify, ret. cbn -[get_with_args].
  destruct (initialized p); cbn -[get_with_args]; [eauto|].
  destruct (get_with_args_ret ca fetch (set_initialized true p)) as (p1 & e1 & v & Hg & He).
  rewrite Hg. cbn. rewrite app_nil_r. eauto.
Qed.

Lemma compare_to_curr_cases ca fetch v p :
  exists p' evs, no_cb_events evs = true /\
    (compare_to_curr ca fetch v p = (p', evs, Ret true) \/
     compare_to_curr ca fetch v p = (p', evs, Ret false) \/
     compare_to_curr ca fetch v p = (p', evs, Raise ValueError)).
Proof.
  destruct (get_value_ret ca fetch p) as (p1 & e1 & cur & Hg & He).
  unfold compare_to_curr, bind, get_pv, lift. rewrite Hg. cbn -[compare].
  rewrite !app_nil_r. exists p1, e1. split; [exact He|].
  destruct (compare_cases v cur (is_array p1) 0) as [H|[H|H]]; rewrite H; auto.
Qed.

(** X: when a callback is given, [restore_pv] either returns normally and
    hands the callback to exactly one place (one put that will call it, or
    one direct call), or raises ValueError (from [compare]) without calling
    it. *)
Theorem restore_pv_callback_once ca fetch accepts (v : value) (c : nat) (p : snapshot_pv) :
  match restore_pv ca fetch accepts v (Some c) p with
  | (_, evs, r) =>
      (r = Ret tt /\
       (filter is_cb_event evs = [Put v (Some c)] \/
        exists st, filter is_cb_event evs = [Callback c st])) \/
      (r = Raise ValueError /\ filter is_cb_event evs = [])
  end.
Proof.
  destruct (connected p) eqn:Hc; [destruct (write_access p) eqn:Hw; [destruct (is_none v) eqn:Hn|]|];
    [ unfold restore_pv, bind, get_pv; simpl; rewrite ?Hc, ?Hw, ?Hn; simpl;
      left; split; [reflexivity | right; eexists; reflexivity] | |
      unfold restore_pv, bind, get_pv; simpl; rewrite ?Hc, ?Hw, ?Hn; simpl;
      left; split; [reflexivity | right; eexists; reflexivity] ..].
  destruct (compare_to_curr_cases ca fetch v p) as (p' & evs & He & [H|[H|H]]).
  - rewrite (restore_pv_after_compare ca fetch accepts p v (Some c) p' evs true Hc Hw Hn H).
    cbn. rewrite filter_app, (proj1 (no_cb_events_filter evs He)). simpl.
    left. split; [reflexivity | right; eexists; reflexivity].
  - rewrite (restore_pv_after_compare ca fetch accepts p v (Some c) p' evs false Hc Hw Hn H).
    cbn. destruct (accepts p' v); cbn;
      rewrite filter_app, (proj1 (no_cb_events_filter evs He)); simpl;
      left; (split; [reflexivity|]); [left; reflexivity | right; eexists; reflexivity].
  - unfold restore_pv, bind, get_pv. cbn -[compare_to_curr]. rewrite Hc, Hw, Hn.
    cbn -[compare_to_curr]. rewrite H.
    right. split; [reflexivity|]. apply no_cb_events_filter. exact He.
Qed.

(** X: [restore_pv] issues at most one put, and only the requested value with
    the given callback, on a connected and writable PV, for a value other
    than [None] that [compare_to_curr] found different and that the put
    accepts. *)
Theorem restore_pv_put_only_if ca fetch accepts (v : value) (cb : option nat) (p : snapshot_pv) :
  match restore_pv ca fetch accepts v cb p with
  | (_, evs, _) =>
      List.length (filter is_put evs) <= 1 /\
      (forall w c, In (Put w c) evs ->
         w = v /\ c = cb /\ connected p = true /\ write_access p = true /\
         is_none v = false /\ snd (compare_to_curr ca fetch v p) = Ret false /\
         accepts (fst (fst (compare_to_curr ca fetch v p))) v = true)
  end.
Proof.
  destruct (connected p) eqn:Hc; [destruct (write_access p) eqn:Hw; [destruct (is_none v) eqn:Hn|]|];
    [ unfold restore_pv, bind, get_pv; simpl; rewrite ?Hc, ?Hw, ?Hn;
      destruct cb; simpl; (split; [lia|]); intros w c Hin; simpl in Hin; intuition discriminate | |
      unfold restore_pv, bind, get_pv; simpl; rewrite ?Hc, ?Hw, ?Hn;
      destruct cb; simpl; (split; [lia|]); intros w c Hin; simpl in Hin; intuition discriminate ..].
  destruct (compare_to_curr_cases ca fetch v p) as (p' & evs & He & [H|[H|H]]).
  - rewrite (restore_pv_after_compare ca fetch accepts p v cb p' evs true Hc Hw Hn H).
    destruct cb; cbn; rewrite ?app_nil_r, ?filter_app, (proj2 (no_cb_events_filter evs He));
      simpl; (split; [lia|]); intros w c Hin;
      [apply in_app_or in Hin; destruct Hin as [Hin|[Hin|[]]]; [|discriminate] | ];
      apply (no_cb_events_In evs _ He) in Hin; discriminate.
  - rewrite (restore_pv_after_compare ca fetch accepts p v cb p' evs false Hc Hw Hn H).
    rewrite H. cbn. destruct (accepts p' v) eqn:Ha; cbn.
    + rewrite filter_app, (proj2 (no_cb_events_filter evs He)). simpl. split; [lia|].
      intros w c Hin. apply in_app_or in Hin. destruct Hin as [Hin|[Hin|[]]].
      * apply (no_cb_events_In evs _ He) in Hin. discriminate.
      * injection Hin as <- <-. auto 10.
    + destruct cb; cbn; rewrite ?app_nil_r, ?filter_app, (proj2 (no_cb_events_filter evs He));
        simpl; (split; [lia|]); intros w c Hin;
        [apply in_app_or in Hin; destruct Hin as [Hin|[Hin|[]]]; [|discriminate] | ];
        apply (no_cb_events_In evs _ He) in Hin; discriminate.
  - unfold restore_pv, bind, get_pv. cbn -[compare_to_curr]. rewrite Hc, Hw, Hn.
    cbn -[compare_to_curr]. rewrite H. rewrite (proj2 (no_cb_events_filter evs He)). simpl.
    split; [lia|]. intros w c Hin. apply (no_cb_events_In evs _ He) in Hin. discriminate.
Qed.

(** *** String helpers *)

Lemma list_ascii_of_string_app (a b : string) :
  list_ascii_of_string (a ++ b) = (list_ascii_of_string a ++ list_ascii_of_string b)%list.
Proof. induction a as [|c a IH]; simpl; [reflexivity | rewrite IH; reflexivity]. Qed.

Lemma string_of_list_ascii_app (a : string) (l : list ascii) :
  string_of_list_ascii (list_ascii_of_string a ++ l) = (a ++ string_of_list_ascii l)%string.
Proof. induction a as [|c a IH]; simpl; [reflexivity | rewrite IH; reflexivity]. Qed.

Lemma string_app_nil_r (s : string) : (s ++ "")%string = s.
Proof. induction s as [|c s IH]; simpl; [reflexivity | rewrite IH; reflexivity]. Qed.

Lemma split_all_aux_no_sep (sep : ascii) (s rest : string) (cur : list ascii) :
  ~ In sep (list_ascii_of_string s) ->
  split_all_aux sep (s ++ rest) cur = split_all_aux sep rest (rev (list_ascii_of_string s) ++ cur).
Proof.
  revert cur. induction s as [|c s IH]; intros cur H; simpl; [reflexivity|].
  destruct (Ascii.eqb_spec c sep); [exfalso; apply H; left; congruence|].
  rewrite IH by (intros Hin; apply H; right; exact Hin). rewrite <- app_assoc. reflexivity.
Qed.

Lemma split_all_one (sep : ascii) (s : string) :
  ~ In sep (list_ascii_of_string s) -> split_all sep s = [s].
Proof.
  intros H. unfold split_all. rewrite <- (string_app_nil_r s) at 1.
  rewrite split_all_aux_no_sep by exact H. simpl.
  rewrite app_nil_r, rev_involutive, string_of_list_ascii_of_string. reflexivity.
Qed.

Lemma split_all_cons (sep : ascii) (s rest : string) :
  ~ In sep (list_ascii_of_string s) ->
  split_all sep (s ++ String sep rest) = s :: split_all sep rest.
Proof.
  intros H. unfold split_all. rewrite split_all_aux_no_sep by exact H. simpl.
  rewrite Ascii.eqb_refl, app_nil_r, rev_involutive, string_of_list_ascii_of_string.
  reflexivity.
Qed.

Lemma split_all_aux_no_sep_elems (sep : ascii) (s : string) (cur : list ascii) :
  ~ In sep cur ->
  forall x, In x (split_all_aux sep s cur) -> ~ In sep (list_ascii_of_string x).
Proof.
  revert cur. induction s as [|c s IH]; intros cur Hc x Hx; simpl in Hx.
  - destruct Hx as [<-|[]]. rewrite list_ascii_of_string_of_list_ascii.
    rewrite <- in_rev. exact Hc.
  - destruct (Ascii.eqb_spec c sep).
    + destruct Hx as [<-|Hx].
      * rewrite list_ascii_of_string_of_list_ascii, <- in_rev. exact Hc.
      * apply (IH [] (fun H => H) x Hx).
    + apply (IH (c :: cur)); [|exact Hx]. intros [H|H]; [congruence | exact (Hc H)].
Qed.

Lemma lstrip_length (s : string) : String.length (lstrip s) <= String.length s.
Proof. induction s as [|c s IH]; simpl; [lia|]. destruct (is_space c); simpl; lia. Qed.

Lemma lstrip_app (k s : string) :
  lstrip k = k -> lstrip s = s -> lstrip (k ++ s) = (k ++ s)%string.
Proof.
  destruct k as [|c k]; simpl; [auto|]. intros Hk _.
  destruct (is_space c); [|reflexivity].
  pose proof (lstrip_length k) as L. rewrite Hk in L. simpl in L. lia.
Qed.

Lemma drop_spaces_app (l m : list ascii) :
  drop_spaces l = l -> l <> [] -> drop_spaces (l ++ m) = (l ++ m)%list.
Proof.
  destruct l as [|c l]; [congruence|]. simpl. intros H _.
  destruct (is_space c); [|reflexivity].
  assert (Hl : forall l, List.length (drop_spaces l) <= List.length l).
  { induction l0 as [|x l0 IH]; simpl; [lia|]. destruct (is_space x); simpl; lia. }
  specialize (Hl l). rewrite H in Hl. simpl in Hl. lia.
Qed.

Lemma rstrip_no_space (v : string) :
  rstrip v = v -> drop_spaces (rev (list_ascii_of_string v)) = rev (list_ascii_of_string v).
Proof.
  unfold rstrip. intros H. apply (f_equal list_ascii_of_string) in H.
  rewrite list_ascii_of_string_of_list_ascii in H.
  rewrite <- H at 2. rewrite rev_involutive. reflexivity.
Qed.

(** A macro item [k=v] whose key has no leading and whose value has no
    trailing whitespace is left alone by [strip]. *)
Lemma strip_macro_item (k v : string) :
  lstrip k = k -> rstrip v = v -> strip (k ++ "=" ++ v) = (k ++ "=" ++ v)%string.
Proof.
  intros Hk Hv. unfold strip. rewrite lstrip_app by (auto; reflexivity).
  unfold rstrip. rewrite !list_ascii_of_string_app. simpl.
  rewrite rev_app_distr. simpl. rewrite <- app_assoc. simpl.
  destruct (rev (list_ascii_of_string v)) as [|c l] eqn:Hr.
  - assert (Hv0 : v = ""%string).
    { destruct v as [|c v]; [reflexivity|]. simpl in Hr.
      apply app_eq_nil in Hr. destruct Hr as [_ Hr]. discriminate. }
    subst v. simpl. rewrite rev_involutive, string_of_list_ascii_app. reflexivity.
  - rewrite drop_spaces_app.
    + rewrite <- Hr, rev_app_distr, rev_involutive. simpl. rewrite rev_involutive.
      rewrite <- app_assoc, string_of_list_ascii_app. simpl.
      rewrite string_of_list_ascii_of_string. reflexivity.
    + rewrite <- Hr. apply rstrip_no_space. exact Hv.
    + discriminate.
Qed.

Lemma split_all_concat (items : list string) :
  items <> [] -> (forall x, In x items -> ~ In ","%char (list_ascii_of_string x)) ->
  split_all "," (String.concat "," items) = items.
Proof.
  induction items as [|x [|y items] IH]; intros Hne H; [congruence| |].
  - simpl. apply split_all_one. apply H. left. reflexivity.
  - change (String.concat "," (x :: y :: items)) with (x ++ String "," (String.concat "," (y :: items)))%string.
    rewrite split_all_cons by (apply H; left; reflexivity).
    rewrite IH; [reflexivity | discriminate | intros z Hz; apply H; right; exact Hz].
Qed.

Lemma dict_set_fresh (k v : string) (d : sdict) :
  ~ In k (map fst d) -> dict_set k v d = (d ++ [(k, v)])%list.
Proof.
  induction d as [|[k' v'] d IH]; simpl; intros H; [reflexivity|].
  destruct (String.eqb_spec k k'); [exfalso; auto|]. rewrite IH; auto.
Qed.

Lemma parse_macros_fold_None (l : list string) :
  fold_left
    (fun acc macro =>
       match acc with
       | None => None
       | Some d =>
           match split_all "=" (strip macro) with
           | [k; v] => Some (dict_set k v d)
           | _ => None
           end
       end) l None = None.
Proof. induction l as [|x l IH]; simpl; auto. Qed.

Lemma parse_macros_fold_iff (l : list string) (d : sdict) :
  fold_left
    (fun acc macro =>
       match acc with
       | None => None
       | Some d =>
           match split_all "=" (strip macro) with
           | [k; v] => Some (dict_set k v d)
           | _ => None
           end
       end) l (Some d) = None <->
  exists item, In item l /\ List.length (split_all "=" (strip item)) <> 2.
Proof.
  revert d. induction l as [|x l IH]; intros d; simpl.
  - split; [discriminate | intros [item [[] _]]].
  - destruct (split_all "=" (strip x)) as [|k [|v [|w rest]]] eqn:E.
    + rewrite parse_macros_fold_None. split; [intros _; exists x; rewrite E; simpl; auto | auto].
    + rewrite parse_macros_fold_None. split; [intros _; exists x; rewrite E; simpl; auto | auto].
    + rewrite IH. split.
      * intros [item [Hi Hl]]. exists item. auto.
      * intros [item [[<-|Hi] Hl]]; [rewrite E in Hl; simpl in Hl; congruence | exists item; auto].
    + rewrite parse_macros_fold_None. split; [intros _; exists x; rewrite E; simpl; auto | auto].
Qed.

(** X: [parse_macros] raises MacroError exactly when the string is not empty
    and one of its comma-separated items, once stripped, does not split into
    exactly two parts at ['=']. *)
Theorem parse_macros_error (s : string) :
  parse_macros s = None <->
  s <> ""%string /\
  exists item, In item (split_all "," s) /\ List.length (split_all "=" (strip item)) <> 2.
Proof.
  unfold parse_macros. destruct (String.eqb_spec s "").
  - split; [discriminate | intros [H _]; contradiction].
  - rewrite parse_macros_fold_iff. split; [auto | intros [_ H]; exact H].
Qed.

Lemma macro_item_split (k v : string) :
  macro_text_ok k v -> split_all "=" (strip (k ++ "=" ++ v)) = [k; v].
Proof.
  intros (Hk1 & Hk2 & Hv1 & Hv2 & Hl & Hr). rewrite strip_macro_item by assumption.
  change ("=" ++ v)%string with (String "=" v).
  rewrite split_all_cons by exact Hk2. rewrite split_all_one by exact Hv2. reflexivity.
Qed.

Lemma parse_macros_fold_join (d acc : sdict) :
  NoDup (map fst (acc ++ d)) -> (forall k v, In (k, v) d -> macro_text_ok k v) ->
  fold_left
    (fun acc macro =>
       match acc with
       | None => None
       | Some d =>
           match split_all "=" (strip macro) with
           | [k; v] => Some (dict_set k v d)
           | _ => None
           end
       end) (map (fun kv => fst kv ++ "=" ++ snd kv)%string d) (Some acc) = Some (acc ++ d)%list.
Proof.
  revert acc. induction d as [|[k v] d IH]; intros acc Hnd Hok; cbn [fold_left map fst snd].
  - rewrite app_nil_r. reflexivity.
  - rewrite macro_item_split by (apply Hok; left; reflexivity).
    rewrite dict_set_fresh.
    + rewrite IH.
      * rewrite <- app_assoc. reflexivity.
      * rewrite <- app_assoc. exact Hnd.
      * intros k' v' H. apply Hok. right. exact H.
    + rewrite map_app in Hnd. simpl in Hnd. apply NoDup_remove_2 in Hnd.
      intros Hin. apply Hnd. apply in_or_app. left. exact Hin.
Qed.

(** X: [parse_macros] reads back the ['K1=V1,K2=V2,...'] form of a dict with
    distinct keys, when no key or value contains [','] or ['='], no key
    starts and no value ends with whitespace. *)
Theorem parse_macros_join (d : sdict) :
  NoDup (map fst d) -> (forall k v, In (k, v) d -> macro_text_ok k v) ->
  parse_macros (join_macros d) = Some d.
Proof.
  intros Hnd Hok. destruct d as [|[k v] d']; [reflexivity|].
  unfold parse_macros, join_macros.
  assert (Hne : String.eqb (String.concat "," (map (fun kv => fst kv ++ "=" ++ snd kv)%string ((k, v) :: d'))) "" = false).
  { destruct d'; simpl; destruct k; reflexivity. }
  rewrite Hne. rewrite split_all_concat.
  - apply (parse_macros_fold_join ((k, v) :: d') []); assumption.
  - discriminate.
  - intros x Hx. apply in_map_iff in Hx. destruct Hx as [[k' v'] [<- Hin]].
    destruct (Hok k' v' Hin) as (Hk1 & _ & Hv1 & _). simpl.
    rewrite list_ascii_of_string_app. simpl. intros H. apply in_app_or in H.
    destruct H as [H|[H|H]]; [auto | discriminate | auto].
Qed.

Lemma parse_macros_join_witness :
  NoDup (map fst [("SYS", "TST"); ("D", "A")]) /\
  parse_macros (join_macros [("SYS", "TST"); ("D", "A")]) = Some [("SYS", "TST"); ("D", "A")].
Proof.
  assert (H : NoDup (map fst [("SYS", "TST"); ("D", "A")])).
  { simpl. apply NoDup_cons; [simpl; intros [H|[]]; discriminate|].
    apply NoDup_cons; [intros []|apply NoDup_nil]. }
  split; [exact H|].
  apply parse_macros_join; [exact H|].
  intros k v Hin. simpl in Hin.
  destruct Hin as [Hin|[Hin|[]]]; injection Hin as <- <-;
    unfold macro_text_ok; simpl; repeat split; try reflexivity; intuition discriminate.
Defined.

(** *** process_record *)

Lemma split_all_aux_cons (sep : ascii) (s : string) (cur : list ascii) :
  exists x rest, split_all_aux sep s cur = x :: rest.
Proof.
  revert cur. induction s as [|c s IH]; intros cur; simpl; [eauto|].
  destruct (Ascii.eqb c sep); eauto.
Qed.

(** X: [process_record] writes 1 to the PROC field of the record named by
    the part of the PV name before its first ['.'] (the whole name when it
    has none). *)
Theorem process_record_target (a b : string) :
  ~ In "."%char (list_ascii_of_string a) ->
  process_record a = ((a ++ ".PROC")%string, 1%Z) /\
  process_record (a ++ String "." b) = ((a ++ ".PROC")%string, 1%Z).
Proof.
  intros H. unfold process_record. split.
  - rewrite split_all_one by exact H. reflexivity.
  - rewrite split_all_cons by exact H. reflexivity.
Qed.

Lemma process_record_target_witness :
  ~ In "."%char (list_ascii_of_string "SR:BPM1") /\
  process_record ("SR:BPM1" ++ String "." "VAL") = ("SR:BPM1.PROC", 1%Z).
Proof.
  assert (H : ~ In "."%char (list_ascii_of_string "SR:BPM1")) by (simpl; intuition discriminate).
  split; [exact H|]. exact (proj2 (process_record_target "SR:BPM1" "VAL" H)).
Defined.

(** X: applying [process_record] to the name it writes to writes the same
    field again. *)
Theorem process_record_idempotent (pvname : string) :
  process_record (fst (process_record pvname)) = process_record pvname.
Proof.
  unfold process_record at 2. cbn [fst].
  set (r := hd "" (split_all "." pvname)).
  assert (Hr : ~ In "."%char (list_ascii_of_string r)).
  { unfold r, split_all. destruct (split_all_aux_cons "." pvname []) as (x & rest & E).
    rewrite E. simpl. apply (split_all_aux_no_sep_elems "." pvname [] (fun H => H)).
    rewrite E. left. reflexivity. }
  unfold process_record. change ".PROC"%string with (String "." "PROC").
  rewrite split_all_cons by exact Hr. reflexivity.
Qed.

(** *** SnapshotReqFile: loop check and nested reads *)

Lemma check_looping_from_some abspath normpath (target : string) :
  forall self msg, check_looping_from abspath normpath target self = Some msg ->
  exists a, In a (ancestors self) /\ normpath (abspath (rf_path a)) = target.
Proof.
  fix IH 1. intros [path parent macros cm tr] msg H. simpl in H |- *.
  destruct (String.eqb_spec (normpath (abspath path)) target) as [E|E].
  - clear IH. exists (mk_req path parent macros cm tr). simpl. auto.
  - destruct parent as [par|]; [|discriminate].
    destruct (IH par msg H) as (a & Hin & Ha). exists a. auto.
Qed.

(** X: [_check_looping] reports nothing exactly when no file on the chain
    from the current file up to the root has the normalised absolute path of
    the included file. *)
Theorem check_looping_none abspath normpath (self : req_file) (path : string) :
  check_looping abspath normpath self path = None <->
  forall a, In a (ancestors self) ->
    normpath (abspath (rf_path a)) <> normpath (abspath path).
Proof.
  unfold check_looping. split.
  - intros H a Hin Heq.
    destruct (check_looping_from_found abspath normpath _ a self Hin Heq) as (msg & Hs & _).
    congruence.
  - intros H. destruct (check_looping_from abspath normpath (normpath (abspath path)) self)
      as [msg|] eqn:E; [|reflexivity].
    destruct (check_looping_from_some abspath normpath _ self msg E) as (a & Hin & Ha).
    exfalso. exact (H a Hin Ha).
Qed.

Lemma process_line_frames abspath normpath join_dirname
  (s1 s2 : req_file -> read_result) (self : req_file) (n : nat) (line : string) :
  (forall f, rf_parent f = Some self -> rf_c_macros f = [] ->
             trace_path (rf_trace f) = rf_path f -> s1 f = s2 f) ->
  process_line abspath normpath join_dirname s1 self n line =
  process_line abspath normpath join_dirname s2 self n line.
Proof.
  intros H. unfold process_line.
  destruct (negb (is_skipped_prefix line) && negb (String.eqb (strip line) "")); [reflexivity|].
  destruct (startswith line "!"); [|reflexivity].
  destruct (include_macros self n line _) as [macros|e]; [|reflexivity].
  destruct (check_looping abspath normpath self _); [reflexivity|].
  rewrite H by reflexivity. reflexivity.
Qed.

(** X: reading a request file reads other files only as its children: an
    included file is read with the current file as its parent, with no
    changeable macros (they are not passed down), and with a trace that ends
    at its own path. *)
Theorem read_loop_sub_frames abspath normpath join_dirname
  (s1 s2 : req_file -> read_result) (self : req_file) (n : nat) (lines pvs : list string) :
  (forall f, rf_parent f = Some self -> rf_c_macros f = [] ->
             trace_path (rf_trace f) = rf_path f -> s1 f = s2 f) ->
  read_loop abspath normpath join_dirname s1 self n lines pvs =
  read_loop abspath normpath join_dirname s2 self n lines pvs.
Proof.
  intros H. revert n pvs. induction lines as [|raw rest IH]; intros n pvs; simpl; [reflexivity|].
  rewrite (process_line_frames abspath normpath join_dirname s1 s2 self (S n) (strip raw) H).
  destruct (process_line _ _ _ s2 self (S n) (strip raw)); [apply IH | reflexivity].
Qed.

Lemma read_loop_sub_frames_witness :
  (forall f, rf_parent f = Some (root_req (fun s => s) "/a.req" [] []) -> rf_c_macros f = [] ->
     trace_path (rf_trace f) = rf_path f ->
     (fun g => if String.eqb (rf_path g) "/b.req" then Pvs ["B"] else Pvs []) f =
     (fun g => match rf_parent g, rf_c_macros g with
               | Some _, [] => if String.eqb (rf_path g) "/b.req" then Pvs ["B"] else Pvs []
               | _, _ => Pvs ["X"]
               end) f) /\
  read_loop (fun s => s) (fun s => s) (fun _ b => ("/" ++ b)%string)
    (fun g => if String.eqb (rf_path g) "/b.req" then Pvs ["B"] else Pvs [])
    (root_req (fun s => s) "/a.req" [] []) 0 ["A"; "!b.req"] [] =
  read_loop (fun s => s) (fun s => s) (fun _ b => ("/" ++ b)%string)
    (fun g => match rf_parent g, rf_c_macros g with
              | Some _, [] => if String.eqb (rf_path g) "/b.req" then Pvs ["B"] else Pvs []
              | _, _ => Pvs ["X"]
              end)
    (root_req (fun s => s) "/a.req" [] []) 0 ["A"; "!b.req"] [].
Proof.
  assert (H : forall f, rf_parent f = Some (root_req (fun s => s) "/a.req" [] []) ->
     rf_c_macros f = [] -> trace_path (rf_trace f) = rf_path f ->
     (fun g => if String.eqb (rf_path g) "/b.req" then Pvs ["B"] else Pvs []) f =
     (fun g => match rf_parent g, rf_c_macros g with
               | Some _, [] => if String.eqb (rf_path g) "/b.req" then Pvs ["B"] else Pvs []
               | _, _ => Pvs ["X"]
               end) f).
  { intros f Hp Hc _. simpl. rewrite Hp, Hc. reflexivity. }
  split; [exact H|]. apply read_loop_sub_frames. exact H.
Defined.

(** X: a request file without include lines reads no other file: the result
    does not depend on how included files would be read. *)
Theorem read_loop_no_include abspath normpath join_dirname
  (s1 s2 : req_file -> read_result) (self : req_file) (n : nat) (lines pvs : list string) :
  (forall raw, In raw lines -> startswith (strip raw) "!" = false) ->
  read_loop abspath normpath join_dirname s1 self n lines pvs =
  read_loop abspath normpath join_dirname s2 self n lines pvs.
Proof.
  revert n pvs. induction lines as [|raw rest IH]; intros n pvs H; simpl; [reflexivity|].
  assert (E : process_line abspath normpath join_dirname s1 self (S n) (strip raw) =
              process_line abspath normpath join_dirname s2 self (S n) (strip raw)).
  { unfold process_line. rewrite (H raw (or_introl eq_refl)).
    destruct (negb _ && negb _); reflexivity. }
  rewrite E. destruct (process_line _ _ _ s2 self (S n) (strip raw));
    [apply IH; intros r Hr; apply H; right; exact Hr | reflexivity].
Qed.

Lemma read_loop_no_include_witness :
  (forall raw, In raw ["# comment"; "PV:A"; "PV:B"] -> startswith (strip raw) "!" = false) /\
  read_loop (fun s => s) (fun s => s) (fun _ b => b) (fun _ => Pvs [])
    (root_req (fun s => s) "/a.req" [] []) 0 ["# comment"; "PV:A"; "PV:B"] [] =
  read_loop (fun s => s) (fun s => s) (fun _ b => b) (fun _ => Fail RecursionLimit)
    (root_req (fun s => s) "/a.req" [] []) 0 ["# comment"; "PV:A"; "PV:B"] [].
Proof.
  assert (H : forall raw, In raw ["# comment"; "PV:A"; "PV:B"] -> startswith (strip raw) "!" = false).
  { intros raw [<-|[<-|[<-|[]]]]; reflexivity. }
  split; [exact H|]. apply read_loop_no_include. exact H.
Defined.

(** *** parse_from_save_file *)

Lemma pv_set_keys (k : string) (v : saved_value) (d : list (string * saved_value)) :
  forall x, In x (map fst (pv_set k v d)) <-> x = k \/ In x (map fst d).
Proof.
  induction d as [|[k' v'] d IH]; intros x; simpl.
  - split; [intros [<-|[]]; auto | intros [->|[]]; auto].
  - destruct (String.eqb_spec k k'); simpl.
    + subst. split; [intros [<-|H]; auto | intros [->|[<-|H]]; auto].
    + rewrite IH. split; [intros [<-|[->|H]]; auto | intros [->|[<-|H]]; auto].
Qed.

Lemma pv_set_nodup (k : string) (v : saved_value) (d : list (string * saved_value)) :
  NoDup (map fst d) -> NoDup (map fst (pv_set k v d)).
Proof.
  induction d as [|[k' v'] d IH]; simpl; intros H.
  - apply NoDup_cons; [intros []|apply NoDup_nil].
  - inversion H as [|? ? Hn Hd]; subst.
    destruct (String.eqb_spec k k'); simpl.
    + subst. exact H.
    + apply NoDup_cons; [|auto]. rewrite pv_set_keys. intros [E|E]; [congruence | auto].
Qed.

Lemma parse_data_line_ok loads (st st' : parse_state) (line : string) :
  parse_data_line loads st line = Ret st' ->
  (exists v, ps_saved st' = pv_set (hd "" (split_once "," (strip line))) v (ps_saved st)) /\
  ps_meta st' = ps_meta st /\ ps_meta_loaded st' = ps_meta_loaded st /\
  (~ In ErrNoMeta (ps_err st) -> ~ In ErrNoMeta (ps_err st')).
Proof.
  unfold parse_data_line. intros H.
  destruct (split_once "," (strip line)) as [|x [|y r]]; cbn -[pv_set] in H.
  - injection H as <-. simpl. eauto.
  - injection H as <-. simpl. eauto.
  - destruct (loads y) as [j|]; cbn -[pv_set] in H.
    + destruct (as_saved j) as [sv|e]; [|discriminate]. injection H as <-. simpl. eauto.
    + injection H as <-. simpl. repeat split; eauto.
      intros Hn Hin. apply in_app_or in Hin. destruct Hin as [Hin|[Hin|[]]]; [auto | discriminate].
Qed.

Lemma parse_lines_inv loads (md : bool) (lines : list string) :
  forall st st', parse_lines loads md lines st = Ret st' ->
  ps_meta_loaded st' = ps_meta_loaded st || existsb (fun l => startswith l "#") lines /\
  (~ In ErrNoMeta (ps_err st) -> ~ In ErrNoMeta (ps_err st')) /\
  (ps_meta_loaded st' = false -> ps_meta st' = ps_meta st) /\
  (NoDup (map fst (ps_saved st)) -> NoDup (map fst (ps_saved st'))) /\
  (forall x, In x (map fst (ps_saved st)) -> In x (map fst (ps_saved st'))) /\
  (md = false -> forall l, In l lines -> String.eqb (strip l) "" = false ->
     startswith l "#" = false -> In (hd "" (split_once "," (strip l))) (map fst (ps_saved st'))).
Proof.
  induction lines as [|line rest IH]; intros st st' H; simpl in H.
  - injection H as <-. rewrite orb_false_r. repeat split; auto. intros _ l [].
  - destruct (startswith line "#" && negb (ps_meta_loaded st)) eqn:Hm.
    + apply andb_true_iff in Hm. destruct Hm as [Hh Hl]. apply negb_true_iff in Hl.
      set (st1 := match loads (drop 1 line) with
                  | Some m => mk_ps (ps_saved st) m (ps_err st) true
                  | None => mk_ps (ps_saved st) (ps_meta st) (ps_err st ++ [ErrMetaDecode])%list true
                  end) in H.
      assert (H1 : ps_saved st1 = ps_saved st /\ ps_meta_loaded st1 = true /\
                   (~ In ErrNoMeta (ps_err st) -> ~ In ErrNoMeta (ps_err st1))).
      { unfold st1. destruct (loads (drop 1 line)); simpl; repeat split; auto.
        intros Hn Hin. apply in_app_or in Hin. destruct Hin as [Hin|[Hin|[]]]; [auto | discriminate]. }
      destruct H1 as (Hs1 & Hl1 & He1).
      destruct md.
      * injection H as <-. simpl. rewrite Hh, Hl1, orb_true_r. rewrite Hs1.
        repeat split; auto; [discriminate|discriminate].
      * destruct (IH st1 st' H) as (A & B & C & D & E & F).
        simpl. rewrite Hh, orb_true_r. rewrite Hl1 in A. simpl in A. rewrite A.
        rewrite Hs1 in D, E. repeat split; auto.
        -- discriminate.
        -- intros _ l [<-|Hin] Hs Hc; [congruence | apply F; auto].
    + destruct (negb md && negb (String.eqb (strip line) "") && negb (startswith line "#")) eqn:Hd.
      * destruct (parse_data_line loads st line) as [st1|e] eqn:Hp; [|discriminate].
        destruct (parse_data_line_ok loads st st1 line Hp) as ([v Hs1] & Hm1 & Hl1 & He1).
        destruct (IH st1 st' H) as (A & B & C & D & E & F).
        rewrite Hl1 in A. simpl. apply andb_true_iff in Hd. destruct Hd as [Hd Hc].
        apply andb_true_iff in Hd. destruct Hd as [Hmd Hne].
        apply negb_true_iff in Hc. rewrite Hc. simpl. rewrite Hs1 in D, E.
        repeat split; auto.
        -- intros Hf. rewrite C by exact Hf. exact Hm1.
        -- intros Hn. apply D. apply pv_set_nodup. exact Hn.
        -- intros x Hx. apply E. apply pv_set_keys. right. exact Hx.
        -- intros Hmd' l [<-|Hin] Hs Hh.
           ++ apply E. apply pv_set_keys. left. reflexivity.
           ++ apply F; auto.
      * destruct (IH st st' H) as (A & B & C & D & E & F).
        simpl. repeat split; auto.
        -- rewrite A. destruct (startswith line "#") eqn:Hh; simpl; [|reflexivity].
           simpl in Hm. rewrite orb_true_r. apply negb_false_iff in Hm. rewrite Hm. reflexivity.
        -- intros Hmd l [<-|Hin] Hs Hh; [|apply F; auto].
           subst md. rewrite Hs, Hh in Hd. discriminate.
Qed.

Lemma existsb_false_iff {A} (f : A -> bool) (l : list A) :
  existsb f l = false <-> forall x, In x l -> f x = false.
Proof.
  induction l as [|x l IH]; simpl; [split; auto; intros _ _ []|].
  rewrite orb_false_iff, IH. split.
  - intros [H1 H2] y [<-|Hy]; auto.
  - intros H. split; auto.
Qed.

(** X: the 'No meta data in the file.' error is reported exactly when no
    line of the file starts with ['#']; it then comes first in the error
    list and the metadata is the empty dict. *)
Theorem parse_save_file_no_meta loads (lines : list string) (metadata_only : bool) :
  match parse_from_save_file loads lines metadata_only with
  | Ret (_, meta, errs) =>
      (In ErrNoMeta errs <-> forall l, In l lines -> startswith l "#" = false) /\
      (In ErrNoMeta errs -> hd_error errs = Some ErrNoMeta /\ meta = JObj [])
  | Raise _ => True
  end.
Proof.
  unfold parse_from_save_file.
  destruct (parse_lines loads metadata_only lines (mk_ps [] (JObj []) [] false)) as [st|e] eqn:E;
    [|exact I].
  destruct (parse_lines_inv loads metadata_only lines _ st E) as (A & B & C & _).
  simpl in A, B, C. specialize (B (fun H => H)).
  destruct (ps_meta_loaded st) eqn:Hl.
  - assert (Hx : existsb (fun l => startswith l "#") lines = true) by (rewrite <- A; reflexivity).
    split.
    + split; [intros Hin; contradiction|].
      intros H. rewrite (proj2 (existsb_false_iff _ _) H) in Hx. discriminate.
    + intros Hin; contradiction.
  - split; [split|].
    + intros _. apply existsb_false_iff. rewrite <- A. reflexivity.
    + intros _. left. reflexivity.
    + intros _. split; [reflexivity | apply C; reflexivity].
Qed.

Lemma parse_lines_metadata_only loads (lines : list string) :
  forall st, ps_saved st = [] -> ps_err st = [] -> ps_meta_loaded st = false ->
  exists st', parse_lines loads true lines st = Ret st' /\ ps_saved st' = [] /\
    ((ps_meta_loaded st' = true /\ (ps_err st' = [] \/ ps_err st' = [ErrMetaDecode])) \/
     (ps_meta_loaded st' = false /\ ps_err st' = [])).
Proof.
  induction lines as [|line rest IH]; intros st Hs He Hl; simpl.
  - eexists. split; [reflexivity|]. auto.
  - rewrite Hl. simpl. rewrite andb_true_r.
    destruct (startswith line "#").
    + destruct (loads (drop 1 line)); eexists; (split; [reflexivity|]); simpl;
        rewrite He, Hs; auto.
    + simpl. apply IH; assumption.
Qed.

(** X: with [metadata_only=True] no PV is read: when the parse returns, it
    returns no saved PVs and at most one error (undecodable or missing
    metadata). *)
Theorem parse_save_file_metadata_only loads (lines : list string) :
  match parse_from_save_file loads lines true with
  | Ret (saved, _, errs) =>
      saved = [] /\ (errs = [] \/ errs = [ErrMetaDecode] \/ errs = [ErrNoMeta])
  | Raise _ => True
  end.
Proof.
  unfold parse_from_save_file.
  destruct (parse_lines_metadata_only loads lines (mk_ps [] (JObj []) [] false)
              eq_refl eq_refl eq_refl) as (st & E & Hs & H).
  rewrite E, Hs.
  destruct H as [[Hl [He|He]]|[Hl He]]; rewrite Hl, He; tauto.
Qed.

(** X: in the parsed save file every PV name appears once, and every
    non-empty line that does not start with ['#'] has its name (the text
    before the first comma) among them. *)
Theorem parse_save_file_keys loads (lines : list string) :
  match parse_from_save_file loads lines false with
  | Ret (saved, _, _) =>
      NoDup (map fst saved) /\
      (forall l, In l lines -> String.eqb (strip l) "" = false -> startswith l "#" = false ->
         In (hd "" (split_once "," (strip l))) (map fst saved))
  | Raise _ => True
  end.
Proof.
  unfold parse_from_save_file.
  destruct (parse_lines loads false lines (mk_ps [] (JObj []) [] false)) as [st|e] eqn:E;
    [|exact I].
  destruct (parse_lines_inv loads false lines _ st E) as (_ & _ & _ & D & _ & F).
  split; [apply D; apply NoDup_nil | apply F; reflexivity].
Qed.

(** *** SnapshotPv.macros_substitution *)

Lemma prefix_app (p s : string) : String.prefix p s = true -> exists b, s = (p ++ b)%string.
Proof.
  revert s. induction p as [|c p IH]; intros s H; simpl in *; [eauto|].
  destruct s as [|c' s]; simpl in H; [discriminate|].
  destruct (ascii_dec c c'); [subst|discriminate].
  destruct (IH s H) as [b ->]. eauto.
Qed.

Lemma string_app_assoc (a b c : string) : ((a ++ b) ++ c)%string = (a ++ b ++ c)%string.
Proof. induction a as [|x a IH]; simpl; [reflexivity | rewrite IH; reflexivity]. Qed.

Lemma replace_fuel_no_match (fuel : nat) (k rep s : string) :
  ~ (exists a b, s = (a ++ "$(" ++ b)%string) ->
  replace_fuel fuel ("$(" ++ k ++ ")") rep s = s.
Proof.
  revert s. induction fuel as [|f IH]; intros s H; simpl; [reflexivity|].
  destruct s as [|c s']; [reflexivity|].
  destruct (String.prefix (String "$" (String "(" (k ++ ")"))) (String c s')) eqn:Hp.
  - exfalso. apply prefix_app in Hp. destruct Hp as [b Hb].
    apply H. exists ""%string, (k ++ ")" ++ b)%string. rewrite Hb. simpl.
    rewrite string_app_assoc. reflexivity.
  - rewrite IH; [reflexivity|]. intros (a & b & E). apply H.
    exists (String c a), b. rewrite E. reflexivity.
Qed.

(** X: a text with no ['$('] in it comes out of [macros_substitution]
    unchanged, whatever the macros. *)
Theorem macros_substitution_no_reference (txt : string) (macros : sdict) :
  ~ (exists a b, txt = (a ++ "$(" ++ b)%string) ->
  macros_substitution txt macros = txt.
Proof.
  intros H. unfold macros_substitution.
  induction macros as [|[k v] macros IH]; cbn [fold_left fst snd]; [reflexivity|].
  unfold str_replace at 2. rewrite replace_fuel_no_match by exact H. exact IH.
Qed.

Lemma macros_substitution_no_reference_witness :
  ~ (exists a b, "SR:BPM1:X"%string = (a ++ "$(" ++ b)%string) /\
  macros_substitution "SR:BPM1:X" [("SYS", "TST")] = "SR:BPM1:X"%string.
Proof.
  assert (H : ~ (exists a b, "SR:BPM1:X"%string = (a ++ "$(" ++ b)%string)).
  { intros (a & b & E).
    assert (Hin : In "$"%char (list_ascii_of_string "SR:BPM1:X")).
    { rewrite E, list_ascii_of_string_app. apply in_or_app. right. left. reflexivity. }
    simpl in Hin. intuition discriminate. }
  split; [exact H|]. apply macros_substitution_no_reference. exact H.
Defined.
